(** * Laba.py: the text-analysis strategies and their dispatcher

    A shallow embedding of [src/Laba.py]: the five [TextAnalysisStrategy]
    subclasses, the [TextAnalyzer] that delegates to the selected strategy,
    and the [Logger] with its log file.  The commands of [TextAnalysisApp],
    which live among the widgets, the dialogs and the log, are left out.

    Conventions.
    - A Python [str] is a sequence of Unicode code points: [list N].
    - A [dict] or [Counter] is a [gmap]; a [set] is a [gset].  The results
      proved here never depend on the iteration order of a dictionary.
    - A raised exception is the [Raise] branch of [result].
    - [str.lower] and the regular-expression class [\w] depend on the
      Unicode tables of the interpreter; they are the two fields of
      [Unicode].  [pymorphy2.MorphAnalyzer] is an external library; its
      [parse] method is the field of [MorphAnalyzer].
    - A Python [float] is a binary64 number.  The operations the program
      applies to floats are the fields of [FloatArith]; [binary64] is the
      interpreter's arithmetic, each operation returning the binary64 number
      nearest to the exact result, and [exact_rationals] is the arithmetic
      without rounding. *)

From Stdlib Require Import Ascii QArith Qcanon Lqa.
From Stdlib Require Import Floats.SpecFloat.
From stdpp Require Import gmap list strings numbers.

Local Open Scope nat_scope.

(** ** Exceptions *)

Inductive exn : Set :=
  | TypeError
  | ZeroDivisionError
  | OverflowError
  | KeyError
  | IndexError.

Inductive result (A : Type) : Type :=
  | Ok (a : A)
  | Raise (e : exn).
Arguments Ok {A} a.
Arguments Raise {A} e.

#[global] Instance result_ret : MRet result := λ A a, Ok a.
#[global] Instance result_bind : MBind result := λ A B f r,
  match r with
  | Ok a => f a
  | Raise e => Raise e
  end.
#[global] Instance result_fmap : FMap result := λ A B f r,
  match r with
  | Ok a => Ok (f a)
  | Raise e => Raise e
  end.

(** A [for] loop whose body may raise: the first exception ends the loop. *)
Fixpoint for_each {A B : Type} (body : B → A → result B) (b : B) (l : list A)
  : result B :=
  match l with
  | [] => Ok b
  | a :: l' => b' ← body b a; for_each body b' l'
  end.

(** ** Strings *)

(** The code points of an ASCII literal. *)
Definition py (s : string) : list N :=
  N_of_ascii <$> String.list_ascii_of_string s.

(** [str.isspace] of one character, the table of CPython's
    [_PyUnicode_IsWhitespace]. *)
Definition isspace (c : N) : bool :=
  (((9 <=? c) && (c <=? 13)) || ((28 <=? c) && (c <=? 32))
   || (c =? 133) || (c =? 160) || (c =? 5760)
   || ((8192 <=? c) && (c <=? 8202))
   || (c =? 8232) || (c =? 8233) || (c =? 8239) || (c =? 8287)
   || (c =? 12288))%N.

Fixpoint lstrip (s : list N) : list N :=
  match s with
  | [] => []
  | c :: s' => if isspace c then lstrip s' else s
  end.

Definition rstrip (s : list N) : list N := reverse (lstrip (reverse s)).

(** [s.strip()] *)
Definition strip (s : list N) : list N := rstrip (lstrip s).

(** Truth value of a string: non-empty. *)
Definition truthy (s : list N) : bool :=
  match s with
  | [] => false
  | _ :: _ => true
  end.

(** [w[start:]] for a non-negative [start]: a start beyond the end is
    clamped to the length, so the slice is empty and nothing is raised. *)
Definition slice_from (start : nat) (w : list N) : list N := drop start w.

(** The interpreter's Unicode tables. *)
Class Unicode := {
  (** [\w] of a [str] pattern *)
  isword : N → bool;
  (** [str.lower] *)
  lower : list N → list N
}.

(** One element of the list returned by [MorphAnalyzer.parse]; only the
    attribute the program reads is kept. *)
Record Parse := { normal_form : list N }.

Class MorphAnalyzer := {
  parse : list N → list Parse
}.

(** ** Regular expressions *)

(** [re.split(r'[.!?]', text)] *)
Definition is_delim (c : N) : bool := ((c =? 46) || (c =? 33) || (c =? 63))%N.

Fixpoint re_split_from (cur : list N) (s : list N) : list (list N) :=
  match s with
  | [] => [cur]
  | c :: s' =>
      if is_delim c then cur :: re_split_from [] s'
      else re_split_from (cur ++ [c]) s'
  end.

Definition re_split (text : list N) : list (list N) := re_split_from [] text.

Section Tokens.
Context {U : Unicode}.

(** The word being read, if any, is complete. *)
Definition flush (cur : list N) : list (list N) :=
  match cur with
  | [] => []
  | _ :: _ => [cur]
  end.

(** [re.findall(r'\b\w+\b', s)]: the maximal runs of word characters,
    from left to right.  [cur] is the run read so far. *)
Fixpoint findall_from (cur : list N) (s : list N) : list (list N) :=
  match s with
  | [] => flush cur
  | c :: s' =>
      if isword c then findall_from (cur ++ [c]) s'
      else flush cur ++ findall_from [] s'
  end.

Definition findall_words (s : list N) : list (list N) := findall_from [] s.
End Tokens.

(** ** Counter *)

(** [Counter(words)]: each element adds one to its count, a missing key
    counting as zero. *)
Definition Counter (words : list (list N)) : gmap (list N) nat :=
  foldl (λ freq w, <[w := S (default 0 (freq !! w))]> freq) ∅ words.

(** [sum(freq.values())] *)
Definition sum_values (freq : gmap (list N) nat) : nat :=
  map_fold (λ _ count acc, acc + count) 0 freq.

(** ** Floats *)

(** Python's [float] with the operations of the program.  The two
    operations that start from an [int] have no result when the value is
    beyond the largest float: they raise OverflowError. *)
Class FloatArith := {
  float : Type;
  (** [a / b] for two [int], [b] not zero *)
  int_truediv : nat → nat → option float;
  (** the conversion of the [int] operand of [x * n] *)
  float_of_int : nat → option float;
  (** [x * y] *)
  float_mul : float → float → float
}.

Section Floats.
Context {F : FloatArith}.

(** [count / total_words]: true division, which raises on a zero divisor. *)
Definition truediv (count total : nat) : result float :=
  match total with
  | 0 => Raise ZeroDivisionError
  | S _ =>
      match int_truediv count total with
      | Some q => Ok q
      | None => Raise OverflowError
      end
  end.

(** [x * n] for a float [x] and an [int] [n] *)
Definition mul_int (x : float) (n : nat) : result float :=
  match float_of_int n with
  | Some y => Ok (float_mul x y)
  | None => Raise OverflowError
  end.
End Floats.

(** [{k: f(k, v) for k, v in d.items()}] where [f] may raise. *)
Definition dict_comprehension {A B : Type}
    (f : list N → A → result B) (d : gmap (list N) A)
  : result (gmap (list N) B) :=
  for_each (λ acc kv, y ← f kv.1 kv.2; Ok (<[kv.1 := y]> acc)) ∅
           (map_to_list d).

(** [sum(rel_freq.values())] over the rationals. *)
Definition sum_values_Qc (rel : gmap (list N) Qc) : Qc :=
  map_fold (λ _ q acc, acc + q)%Qc 0%Qc rel.

(** ** The strategies *)

Section Strategies.
Context {U : Unicode} {M : MorphAnalyzer} {F : FloatArith}.

(** What an [analyze] method returns. *)
Inductive Result : Type :=
  | PyNone
  | PyCounter (freq : gmap (list N) nat)
  | PyDictFloat (rel_freq : gmap (list N) float)
  | PyInt (n : nat)
  | PyDictList (inflections : gmap (list N) (list (list N))).

Definition AbsoluteFrequencyStrategy_analyze (text : list N)
  : gmap (list N) nat :=
  let words := findall_words (lower text) in
  let freq := Counter words in
  freq.

Definition RelativeFrequencyStrategy_analyze (text : list N)
  : result (gmap (list N) float) :=
  let words := findall_words (lower text) in
  let total_words := length words in
  let freq := Counter words in
  dict_comprehension
    (λ word count, q ← truediv count total_words; mul_int q 100)
    freq.

Definition SentenceCountStrategy_analyze (text : list N) : nat :=
  let sentences := re_split text in
  length (List.filter (λ s, truthy (strip s)) sentences).

(** [self.morph.parse(word)[0].normal_form] *)
Definition lemma_of (word : list N) : result (list N) :=
  match parse word with
  | [] => Raise IndexError
  | p :: _ => Ok (normal_form p)
  end.

(** [d[key]] *)
Definition getitem {A : Type} (d : gmap (list N) A) (key : list N)
  : result A :=
  match d !! key with
  | Some v => Ok v
  | None => Raise KeyError
  end.

(** The body of the inner loop, for one word [w] of the text. *)
Definition scan_word (lemma : list N)
    (inflections : gmap (list N) (list (list N))) (w : list N)
  : result (gmap (list N) (list (list N))) :=
  l ← lemma_of w;
  if decide (l = lemma) then
    let inflection := slice_from (length lemma) w in
    group ← getitem inflections lemma;
    Ok (<[lemma := group ++ [inflection]]> inflections)
  else Ok inflections.

(** The body of the outer loop, for one selected word. *)
Definition scan_seed (words : list (list N))
    (inflections : gmap (list N) (list (list N))) (word : list N)
  : result (gmap (list N) (list (list N))) :=
  lemma ← lemma_of word;
  for_each (scan_word lemma) (<[lemma := []]> inflections) words.

Definition InflectionHighlightStrategy_analyze
    (text : list N) (selected_words : list (list N))
  : result (gmap (list N) (list (list N))) :=
  let inflections := ∅ in
  let words := findall_words (lower text) in
  for_each (scan_seed words) inflections selected_words.

Definition UniqueWordsCountStrategy_analyze (text : list N) : nat :=
  let words := findall_words (lower text) in
  let unique_words : gset (list N) := list_to_set words in
  size unique_words.

(** The class of the strategy object. *)
Inductive Strategy : Set :=
  | TextAnalysisStrategy
  | AbsoluteFrequencyStrategy
  | RelativeFrequencyStrategy
  | SentenceCountStrategy
  | InflectionHighlightStrategy
  | UniqueWordsCountStrategy.

(** [strategy.analyze(text, *args)]: method lookup on the class of
    [strategy]; a call with the wrong number of arguments raises. *)
Definition Strategy_analyze (strategy : Strategy) (text : list N)
    (args : list (list (list N))) : result Result :=
  match strategy, args with
  | TextAnalysisStrategy, [] => Ok PyNone
  | AbsoluteFrequencyStrategy, [] =>
      Ok (PyCounter (AbsoluteFrequencyStrategy_analyze text))
  | RelativeFrequencyStrategy, [] =>
      PyDictFloat <$> RelativeFrequencyStrategy_analyze text
  | SentenceCountStrategy, [] =>
      Ok (PyInt (SentenceCountStrategy_analyze text))
  | InflectionHighlightStrategy, [selected_words] =>
      PyDictList <$> InflectionHighlightStrategy_analyze text selected_words
  | UniqueWordsCountStrategy, [] =>
      Ok (PyInt (UniqueWordsCountStrategy_analyze text))
  | _, _ => Raise TypeError
  end.

(** ** TextAnalyzer *)

Record TextAnalyzer := { _strategy : Strategy }.

Definition TextAnalyzer_init (strategy : Strategy) : TextAnalyzer :=
  {| _strategy := strategy |}.

Definition set_strategy (self : TextAnalyzer) (strategy : Strategy)
  : TextAnalyzer :=
  {| _strategy := strategy |}.

Definition TextAnalyzer_analyze (self : TextAnalyzer) (text : list N)
    (args : list (list (list N))) : result Result :=
  Strategy_analyze (_strategy self) text args.

End Strategies.

(** ** Instances used in the examples *)

(** The Unicode tables restricted to ASCII: on ASCII text they agree with
    the interpreter's. *)
Definition ascii_isword (c : N) : bool :=
  (((48 <=? c) && (c <=? 57)) || ((65 <=? c) && (c <=? 90))
   || (c =? 95) || ((97 <=? c) && (c <=? 122)))%N.

Definition ascii_lower_char (c : N) : N :=
  if ((65 <=? c) && (c <=? 90))%N then (c + 32)%N else c.

Definition ascii_tables : Unicode :=
  {| isword := ascii_isword; lower := fmap ascii_lower_char |}.

(** An analyzer with a dictionary of (form, normal form) pairs; a word that
    is not listed is its own normal form. *)
Definition table_morph (table : list (list N * list N)) : MorphAnalyzer :=
  {| parse := λ w,
       match list_find (λ e, e.1 = w) table with
       | Some (_, e) => [ {| normal_form := e.2 |} ]
       | None => [ {| normal_form := w |} ]
       end |}.

Definition toy_morph : MorphAnalyzer :=
  table_morph [ (py "runs", py "run"); (py "ran", py "run");
                (py "running", py "run"); (py "mice", py "mouse") ].

(** ** The analyzer of the program *)

(** The analyzer of line 64, [pymorphy2.MorphAnalyzer()]: its [parse]
    lowercases the word and hands the lowercase form to its analyzer units,
    which produce the parses. *)
Definition pymorphy2_MorphAnalyzer {U : Unicode}
    (units : list N → list Parse) : MorphAnalyzer :=
  {| parse := λ word, let word_lower := lower word in units word_lower |}.

(** ** Binary64 *)

(** The integer part of the binary logarithm of [n/d]. *)
Definition binade (n d : positive) : Z :=
  let s := (Z.log2 (Zpos d) + 1)%Z in
  (Z.log2 (Zpos n * 2 ^ s / Zpos d) - s)%Z.

(** The integer nearest to [num/den], the even one of two that are
    equally near. *)
Definition round_half_even (num den : Z) : Z :=
  let q := (num / den)%Z in
  match (2 * (num mod den) ?= den)%Z with
  | Lt => q
  | Eq => if Z.even q then q else (q + 1)%Z
  | Gt => (q + 1)%Z
  end.

(** The binary64 number nearest to the rational [n/d], with sign [s]: a
    mantissa of 53 bits at most, an exponent that is -1074 at least, the
    even mantissa of two that are equally near, and the infinity beyond the
    largest number. *)
Definition RN (s : bool) (n d : positive) : spec_float :=
  let e := Z.max (binade n d - 52) (-1074) in
  let m := round_half_even (Zpos n * 2 ^ Z.max 0 (- e))
             (Zpos d * 2 ^ Z.max 0 e) in
  let '(m, e) := if (m =? 2 ^ 53)%Z then (2 ^ 52, e + 1)%Z else (m, e) in
  match m with
  | Z0 => S754_zero s
  | Zpos p => if (e <=? 971)%Z then S754_finite s p e else S754_infinity s
  | Zneg _ => S754_nan
  end.

(** The float nearest to the quotient of two [int]: [a / b] and, with
    [b = 1], [float(a)]. *)
Definition b64_quotient (a b : nat) : option spec_float :=
  match a with
  | 0 => Some (S754_zero false)
  | S _ =>
      match RN false (Pos.of_nat a) (Pos.of_nat b) with
      | S754_infinity _ => None
      | q => Some q
      end
  end.

(** The product of two floats: the float nearest to the exact product, and
    the special values as in [SFmul]. *)
Definition b64_mul (x y : spec_float) : spec_float :=
  match x, y with
  | S754_finite sx mx ex, S754_finite sy my ey =>
      RN (xorb sx sy)
        (mx * my * Z.to_pos (2 ^ Z.max 0 (ex + ey)))
        (Z.to_pos (2 ^ Z.max 0 (- (ex + ey))))
  | _, _ => SFmul 53 1024 x y
  end.

(** Two floats are the same datum. *)
Definition SF_same (x y : spec_float) : bool :=
  match x, y with
  | S754_finite s m e, S754_finite s' m' e' =>
      Bool.eqb s s' && Pos.eqb m m' && Z.eqb e e'
  | S754_zero s, S754_zero s' => Bool.eqb s s'
  | S754_infinity s, S754_infinity s' => Bool.eqb s s'
  | S754_nan, S754_nan => true
  | _, _ => false
  end.

(** The integers from 1 to [n]. *)
Definition first_ints (n : nat) : list positive := Pos.of_nat <$> seq 1 n.

(** The arithmetic of the interpreter. *)
Definition binary64 : FloatArith :=
  {| float := spec_float;
     int_truediv := b64_quotient;
     float_of_int := λ n, b64_quotient n 1;
     float_mul := b64_mul |}.

(** The arithmetic without rounding. *)
Definition exact_rationals : FloatArith :=
  {| float := Qc;
     int_truediv := λ a b,
       Some (Qc_of_Z (Z.of_nat a) / Qc_of_Z (Z.of_nat b))%Qc;
     float_of_int := λ n, Some (Qc_of_Z (Z.of_nat n));
     float_mul := Qcmult |}.

(** The rational value of a float; the infinities and NaN have none, they
    are given 0. *)
Definition SF2Q (x : spec_float) : Q :=
  match x with
  | S754_finite s m e =>
      ((if s then -1 else 1)
       * (Zpos m * 2 ^ Z.max 0 e # Z.to_pos (2 ^ Z.max 0 (- e))))%Q
  | _ => 0%Q
  end.

(** The unit roundoff of binary64. *)
Definition u64 : Q := 1 # 2 ^ 53.

(** The float 100.0 *)
Definition hundred : spec_float := S754_finite false 7036874417766400 (-46).

(** [(count / total) * 100] in binary64 *)
Definition b64_percentage (total count : nat) : spec_float :=
  b64_mul (RN false (Pos.of_nat count) (Pos.of_nat total)) hundred.

(** The sum of two floats: for two positive finite floats the float
    nearest to the exact sum, and otherwise as in [SFadd]. *)
Definition b64_add (x y : spec_float) : spec_float :=
  match x, y with
  | S754_finite false mx ex, S754_finite false my ey =>
      RN false
        (Z.to_pos (Zpos mx * 2 ^ Z.max 0 ex * 2 ^ Z.max 0 (- ey)
                   + Zpos my * 2 ^ Z.max 0 ey * 2 ^ Z.max 0 (- ex)))
        (Z.to_pos (2 ^ Z.max 0 (- ex) * 2 ^ Z.max 0 (- ey)))
  | _, _ => SFadd 53 1024 x y
  end.

(** The values added up from left to right, from 0, every addition
    rounded: what a loop [s += v] computes. *)
Definition b64_sum (values : list spec_float) : spec_float :=
  foldl b64_add (S754_zero false) values.

(** The positive finite floats with a negative exponent. *)
Definition normal_pos (x : spec_float) : Prop :=
  ∃ (m : positive) (t : Z), (0 < t)%Z ∧ x = S754_finite false m (- t).

(** The exact percentage of [count] in [total], as a fraction. *)
Definition share (total count : nat) : Q :=
  100 * Z.of_nat count # Pos.of_nat total.

(** The exact sum of the values of a table of floats. *)
Definition sum_values_Q (rel : gmap (list N) spec_float) : Q :=
  map_fold (λ _ x acc, acc + SF2Q x)%Q 0%Q rel.

(** The rationals between 2^-1022 and 2^10, which round to a normal
    number. *)
Definition in_range (n d : positive) : Prop :=
  (Zpos n < 2 ^ 10 * Zpos d ∧ Zpos d ≤ 2 ^ 1022 * Zpos n)%Z.

Definition sample_text : list N := py "He runs and ran; the mice ran".
Definition sample_seeds : list (list N) := [py "run"; py "mouse"].

(** The examples are read with these three. *)
#[local] Existing Instance ascii_tables.
#[local] Existing Instance toy_morph.
#[local] Existing Instance binary64.

(** ** Definitions used in the statements *)

Section Statements.
Context {U : Unicode} {M : MorphAnalyzer}.

(** The analyzer returns at least one parse for [w]. *)
Definition parsed (w : list N) : Prop := parse w ≠ [].

(** The normal form of the first parse, for a word that is [parsed]. *)
Definition the_lemma (w : list N) : list N :=
  match parse w with
  | [] => []
  | p :: _ => normal_form p
  end.

(** The residual suffixes, in text order, of the words of the text whose
    lemma is [lemma]. *)
Definition suffixes_of (lemma : list N) (words : list (list N))
  : list (list N) :=
  slice_from (length lemma) <$> filter (λ w, the_lemma w = lemma) words.
End Statements.

(** The percentage of a count among [total] tokens. *)
Definition percentage (total count : nat) : Qc :=
  (Qc_of_Z (Z.of_nat count) / Qc_of_Z (Z.of_nat total) * Qc_of_Z 100)%Qc.

(** [s] contains a character that is not white space. *)
Definition has_content (s : list N) : bool :=
  existsb (λ c, negb (isspace c)) s.

(** The number of occurrences of [w] in [words]. *)
Definition occurrences (w : list N) (words : list (list N)) : nat :=
  length (filter (λ w', w' = w) words).

(** The number of arguments, after the text, in the signature of the
    [analyze] method of a strategy. *)
Definition extra_parameters (strategy : Strategy) : nat :=
  match strategy with
  | InflectionHighlightStrategy => 1
  | _ => 0
  end.

(** ** Logger *)

(** A [Logger] object: its attribute [log_file]. *)
Record Logger := { log_file : list N }.

(** What the logger reads and writes: the class attribute
    [Logger._instance] and the content of the files, by path.  Every path
    is taken to be writable. *)
Record World := {
  _instance : option Logger;
  files : gmap (list N) (list N)
}.

(** [open(path, 'w')] and one [write] *)
Definition write_file (path s : list N) (fs : gmap (list N) (list N))
  : gmap (list N) (list N) :=
  <[path := s]> fs.

(** [open(path, 'a')] and one [write]; a missing file is created. *)
Definition append_file (path s : list N) (fs : gmap (list N) (list N))
  : gmap (list N) (list N) :=
  <[path := default [] (fs !! path) ++ s]> fs.

Definition Logger_init_log_file (log_txt : list N) (w : World)
  : Logger * World :=
  let self := {| log_file := log_txt |} in
  (self,
   {| _instance := _instance w;
      files := write_file (log_file self)
                 (py "Log File Initialized" ++ [10%N]) (files w) |}).

(** [Logger()].  [log_txt] is the value of
    [os.path.join(os.path.dirname(__file__), 'log.txt')]. *)
Definition Logger_new (log_txt : list N) (w : World) : Logger * World :=
  match _instance w with
  | None =>
      let '(self, w') := Logger_init_log_file log_txt w in
      (self, {| _instance := Some self; files := files w' |})
  | Some self => (self, w)
  end.

(** [self.log(message)]; [timestamp] is the rendering of
    [datetime.now()]. *)
Definition Logger_log (self : Logger) (timestamp message : list N) (w : World)
  : World :=
  {| _instance := _instance w;
     files := append_file (log_file self)
                (timestamp ++ py " - " ++ message ++ [10%N]) (files w) |}.

(** The line that [log] writes. *)
Definition log_line (entry : list N * list N) : list N :=
  entry.1 ++ py " - " ++ entry.2 ++ [10%N].

(** A sequence of calls [logger.log(message)], each with the timestamp of
    its moment. *)
Definition log_all (self : Logger) (entries : list (list N * list N))
    (w : World) : World :=
  foldl (λ w entry, Logger_log self entry.1 entry.2 w) w entries.

Definition sample_world : World :=
  {| _instance := None;
     files := {[ py "log.txt" := py "old"; py "a.txt" := py "A" ]} |}.

Definition sample_entries : list (list N * list N) :=
  [ (py "2024-05-01 10:00:00", py "Opened file: a.txt");
    (py "2024-05-01 10:00:05", py "Sentence Count Result: 3") ].

(** * Properties *)

(** ** The model on the examples of the specification *)

Example tokens_cat :
  findall_words (lower (py "The cat sat on the mat."))
  = [py "the"; py "cat"; py "sat"; py "on"; py "the"; py "mat"].
Proof. reflexivity. Qed.

Example absolute_frequency_cat :
  AbsoluteFrequencyStrategy_analyze (py "the cat sat on the mat")
  = {[ py "the" := 2; py "cat" := 1; py "sat" := 1; py "on" := 1;
       py "mat" := 1 ]}.
Proof. by vm_compute. Qed.

Example unique_words_cat :
  UniqueWordsCountStrategy_analyze (py "the cat sat on the mat") = 5.
Proof. by vm_compute. Qed.

Example inflections_run :
  InflectionHighlightStrategy_analyze (py "he runs and ran and running")
    [py "run"]
  = Ok {[ py "run" := [py "s"; py ""; py "ning"] ]}.
Proof. by vm_compute. Qed.

Example strip_spaces : strip (py "  a b  ") = py "a b".
Proof. reflexivity. Qed.

Example wrong_arity :
  Strategy_analyze SentenceCountStrategy (py "Hello.") [[]] = Raise TypeError
  ∧ Strategy_analyze InflectionHighlightStrategy (py "Hello.") []
    = Raise TypeError.
Proof. split; reflexivity. Qed.

(** ** Tokens *)

Lemma flush_tokens `{U : Unicode} (cur : list N) :
  Forall (λ c, isword c = true) cur →
  Forall (λ w, w ≠ [] ∧ Forall (λ c, isword c = true) w) (flush cur).
Proof.
  intros Hcur. destruct cur as [|c cur]; simpl; [constructor|].
  constructor; [|constructor]. by split.
Qed.

Lemma findall_from_tokens `{U : Unicode} (cur s : list N) :
  Forall (λ c, isword c = true) cur →
  Forall (λ w, w ≠ [] ∧ Forall (λ c, isword c = true) w) (findall_from cur s).
Proof.
  revert cur. induction s as [|c s IH]; intros cur Hcur; simpl.
  - by apply flush_tokens.
  - destruct (isword c) eqn:Hc.
    + apply IH. apply Forall_app. split; [done|]. by repeat constructor.
    + apply Forall_app. split; [|by apply IH].
      by apply flush_tokens.
Qed.

(** Every token is a non-empty run of word characters. *)
Lemma findall_words_tokens `{U : Unicode} (s : list N) :
  Forall (λ w, w ≠ [] ∧ Forall (λ c, isword c = true) w) (findall_words s).
Proof. by apply findall_from_tokens. Qed.

(** ** The exception monad *)

Lemma for_each_cons {A B : Type} (body : B → A → result B) b a l :
  for_each body b (a :: l) = (b' ← body b a; for_each body b' l).
Proof. reflexivity. Qed.

(** A loop whose body never raises is a left fold. *)
Lemma for_each_pure {A B : Type} (body : B → A → result B) (step : B → A → B)
    b l :
  (∀ b a, a ∈ l → body b a = Ok (step b a)) →
  for_each body b l = Ok (foldl step b l).
Proof.
  revert b. induction l as [|a l IH]; intros b Hbody; simpl; [done|].
  rewrite Hbody by left. simpl. apply IH.
  intros b' a' Ha'. apply Hbody. by right.
Qed.

(** ** Counter *)

Lemma sum_values_insert (freq : gmap (list N) nat) w count :
  freq !! w = None →
  sum_values (<[w := count]> freq) = sum_values freq + count.
Proof.
  intros Hw. unfold sum_values.
  rewrite map_fold_insert_L; [done | intros; lia | done].
Qed.

Lemma sum_values_count (freq : gmap (list N) nat) w :
  sum_values (<[w := S (default 0 (freq !! w))]> freq) = S (sum_values freq).
Proof.
  destruct (freq !! w) as [count|] eqn:Hw; simpl.
  - rewrite <- (insert_delete_eq freq).
    rewrite <- (insert_delete_id freq w count) at 2 by done.
    rewrite !sum_values_insert by apply lookup_delete_eq. lia.
  - rewrite sum_values_insert by done. lia.
Qed.

Lemma sum_values_foldl (words : list (list N)) (freq : gmap (list N) nat) :
  sum_values
    (foldl (λ freq w, <[w := S (default 0 (freq !! w))]> freq) freq words)
  = sum_values freq + length words.
Proof.
  revert freq. induction words as [|w words IH]; intros freq; simpl.
  - lia.
  - rewrite IH, sum_values_count. lia.
Qed.

Lemma sum_values_Counter (words : list (list N)) :
  sum_values (Counter words) = length words.
Proof. unfold Counter. by rewrite sum_values_foldl. Qed.

(** C5: the counts of the table returned by AbsoluteFrequencyStrategy add
    up to the number of tokens of the text. *)
Theorem absolute_frequency_sum `{U : Unicode} (text : list N) :
  sum_values (AbsoluteFrequencyStrategy_analyze text)
  = length (findall_words (lower text)).
Proof. unfold AbsoluteFrequencyStrategy_analyze. apply sum_values_Counter. Qed.

(** ** The dictionary comprehension *)

Lemma foldl_insert_list_to_map {A B : Type} (g : A → B)
    (l : list (list N * A)) (acc : gmap (list N) B) :
  foldl (λ acc kv, <[kv.1 := g kv.2]> acc) acc l
  = list_to_map (reverse (prod_map id g <$> l)) ∪ acc.
Proof.
  revert acc. induction l as [|[k v] l IH]; intros acc; simpl.
  - by rewrite (left_id_L ∅ (∪)).
  - rewrite IH, reverse_cons, list_to_map_app. simpl.
    rewrite <- (assoc_L (∪)). f_equal.
    rewrite insert_empty, <- insert_union_singleton_l. done.
Qed.

Lemma dict_comprehension_pure {A B : Type}
    (f : list N → A → result B) (g : A → B) (d : gmap (list N) A) :
  (∀ k v, d !! k = Some v → f k v = Ok (g v)) →
  dict_comprehension f d = Ok (g <$> d).
Proof.
  intros Hf. unfold dict_comprehension.
  rewrite (for_each_pure _ (λ acc kv, <[kv.1 := g kv.2]> acc)).
  - f_equal. rewrite foldl_insert_list_to_map, (right_id_L ∅ (∪)).
    rewrite <- (list_to_map_to_list (g <$> d)), map_to_list_fmap.
    apply list_to_map_proper.
    + rewrite fmap_reverse, reverse_Permutation, <- map_to_list_fmap.
      apply NoDup_fst_map_to_list.
    + apply reverse_Permutation.
  - intros acc [k v] Hkv. simpl.
    rewrite (Hf k v) by by apply elem_of_map_to_list. done.
Qed.

(** ** RelativeFrequencyStrategy *)

(** A comprehension over the empty dictionary evaluates nothing. *)
Lemma dict_comprehension_empty {A B : Type} (f : list N → A → result B) :
  dict_comprehension f ∅ = Ok ∅.
Proof. unfold dict_comprehension. by rewrite map_to_list_empty. Qed.

Lemma relative_frequency_empty `{U : Unicode} `{F : FloatArith}
    (text : list N) :
  findall_words (lower text) = [] →
  RelativeFrequencyStrategy_analyze text = Ok ∅.
Proof.
  intros Hwords. unfold RelativeFrequencyStrategy_analyze.
  rewrite Hwords. apply dict_comprehension_empty.
Qed.

(** C2: on a text without tokens RelativeFrequencyStrategy returns the
    empty table; the division by the zero token count is never reached,
    so nothing is raised, neither by the strategy nor through the
    TextAnalyzer that runs it. *)
Theorem relative_frequency_no_tokens `{U : Unicode} `{M : MorphAnalyzer}
    `{F : FloatArith} (text : list N) :
  findall_words (lower text) = [] →
  RelativeFrequencyStrategy_analyze text = Ok ∅
  ∧ TextAnalyzer_analyze (TextAnalyzer_init RelativeFrequencyStrategy) text []
    = Ok (PyDictFloat ∅).
Proof.
  intros Hwords. split; [by apply relative_frequency_empty|].
  unfold TextAnalyzer_analyze. simpl.
  by rewrite relative_frequency_empty.
Qed.

Lemma relative_frequency_no_tokens_witness :
  findall_words (lower (py "?! ...")) = []
  ∧ RelativeFrequencyStrategy_analyze (py "?! ...") = Ok ∅
  ∧ TextAnalyzer_analyze (TextAnalyzer_init RelativeFrequencyStrategy)
      (py "?! ...") []
    = Ok (PyDictFloat ∅).
Proof.
  split; [reflexivity|].
  apply (relative_frequency_no_tokens (py "?! ...")). reflexivity.
Defined.

Lemma sum_percentages (total : nat) (freq : gmap (list N) nat) :
  sum_values_Qc (percentage total <$> freq)
  = percentage total (sum_values freq).
Proof.
  unfold sum_values_Qc, sum_values.
  rewrite map_fold_fmap, !map_fold_foldr.
  induction (map_to_list freq) as [|[k count] l IH]; simpl.
  - unfold percentage. change (Z.of_nat 0) with 0%Z.
    rewrite Z2Qc_inj_0. unfold Qcdiv. ring.
  - rewrite IH. unfold percentage.
    rewrite Nat2Z.inj_add, Z2Qc_inj_add. unfold Qcdiv. ring.
Qed.

Lemma percentage_all (total : nat) :
  total ≠ 0 → percentage total total = Qc_of_Z 100.
Proof.
  intros Htotal. unfold percentage, Qcdiv.
  rewrite Qcmult_inv_r; [ring|].
  rewrite <- Z2Qc_inj_0. intros H%Z2Qc_inj. lia.
Qed.

(** Without rounding, the table holds the percentages themselves. *)
Lemma relative_frequency_table `{U : Unicode} (text : list N) :
  findall_words (lower text) ≠ [] →
  @RelativeFrequencyStrategy_analyze U exact_rationals text
  = Ok (percentage (length (findall_words (lower text)))
          <$> Counter (findall_words (lower text))).
Proof.
  intros Hwords. unfold RelativeFrequencyStrategy_analyze.
  apply (dict_comprehension_pure (B:=Qc)). intros k count _.
  destruct (findall_words (lower text)); [done|]. done.
Qed.

(** ** SentenceCountStrategy *)

Lemma truthy_reverse (s : list N) : truthy (reverse s) = truthy s.
Proof.
  destruct s as [|c s]; [done|].
  rewrite reverse_cons. by destruct (reverse s).
Qed.

Lemma has_content_app (s t : list N) :
  has_content (s ++ t) = has_content s || has_content t.
Proof. apply existsb_app. Qed.

Lemma has_content_reverse (s : list N) : has_content (reverse s) = has_content s.
Proof.
  induction s as [|c s IH]; [done|].
  rewrite reverse_cons, has_content_app, IH. simpl.
  rewrite orb_false_r. apply orb_comm.
Qed.

Lemma truthy_lstrip (s : list N) : truthy (lstrip s) = has_content s.
Proof.
  induction s as [|c s IH]; simpl; [done|].
  destruct (isspace c); simpl; [apply IH | done].
Qed.

Lemma has_content_lstrip (s : list N) : has_content (lstrip s) = has_content s.
Proof.
  induction s as [|c s IH]; simpl; [done|].
  destruct (isspace c) eqn:Hc; simpl; [apply IH | by rewrite Hc].
Qed.

(** A piece survives the filter exactly when some character of it is not
    white space. *)
Lemma truthy_strip (s : list N) : truthy (strip s) = has_content s.
Proof.
  unfold strip, rstrip.
  by rewrite truthy_reverse, truthy_lstrip, has_content_reverse,
    has_content_lstrip.
Qed.

Lemma re_split_from_plain (cur s : list N) :
  Forall (λ c, is_delim c = false) s → re_split_from cur s = [cur ++ s].
Proof.
  intros Hs. revert cur.
  induction Hs as [|c s Hc _ IH]; intros cur; simpl.
  - by rewrite (right_id_L [] (++)).
  - rewrite Hc, IH. by rewrite <- (assoc_L (++)).
Qed.

Lemma re_split_from_delim (cur a b : list N) (d : N) :
  is_delim d = true →
  re_split_from cur (a ++ d :: b) = re_split_from cur a ++ re_split_from [] b.
Proof.
  intros Hd. revert cur. induction a as [|c a IH]; intros cur; simpl.
  - by rewrite Hd.
  - destruct (is_delim c); simpl; by rewrite IH.
Qed.

Lemma sentence_count_delim (a b : list N) (d : N) :
  is_delim d = true →
  SentenceCountStrategy_analyze (a ++ d :: b)
  = SentenceCountStrategy_analyze a + SentenceCountStrategy_analyze b.
Proof.
  intros Hd. unfold SentenceCountStrategy_analyze, re_split.
  by rewrite re_split_from_delim, List.filter_app, length_app.
Qed.

(** C7: SentenceCountStrategy cuts the text at every [.], [!] and [?],
    and counts the pieces that are not empty once trimmed, that is the
    pieces with a character that is not white space.  A text without a
    delimiter is one piece, a delimiter separates the pieces before it from
    the pieces after it, and a delimiter that follows a delimiter adds
    nothing to the count. *)
Theorem sentence_count_spec (text a b s : list N) (d d' : N) :
  is_delim d = true → is_delim d' = true →
  Forall (λ c, is_delim c = false) s →
  SentenceCountStrategy_analyze text
    = length (List.filter has_content (re_split text))
  ∧ re_split s = [s]
  ∧ re_split (a ++ d :: b) = re_split a ++ re_split b
  ∧ SentenceCountStrategy_analyze (a ++ d :: d' :: b)
    = SentenceCountStrategy_analyze (a ++ d :: b)
  ∧ SentenceCountStrategy_analyze (py "") = 0
  ∧ SentenceCountStrategy_analyze (py "Hello.") = 1
  ∧ SentenceCountStrategy_analyze (py "Hello. World! How?") = 3
  ∧ SentenceCountStrategy_analyze (py "Hello...") = 1.
Proof.
  intros Hd Hd' Hs. repeat split; try reflexivity.
  - unfold SentenceCountStrategy_analyze. f_equal.
    apply List.filter_ext. intros piece. apply truthy_strip.
  - by apply re_split_from_plain.
  - by apply re_split_from_delim.
  - rewrite !sentence_count_delim by done. f_equal.
    exact (sentence_count_delim [] b d' Hd').
Qed.

Lemma sentence_count_spec_witness :
  SentenceCountStrategy_analyze (py "Wait... What?! ")
    = length (List.filter has_content (re_split (py "Wait... What?! ")))
  ∧ re_split (py " no end ") = [py " no end "]
  ∧ re_split (py "a?b" ++ 46%N :: py "c")
    = re_split (py "a?b") ++ re_split (py "c")
  ∧ SentenceCountStrategy_analyze (py "a?b" ++ 46%N :: 33%N :: py "c")
    = SentenceCountStrategy_analyze (py "a?b" ++ 46%N :: py "c")
  ∧ SentenceCountStrategy_analyze (py "") = 0
  ∧ SentenceCountStrategy_analyze (py "Hello.") = 1
  ∧ SentenceCountStrategy_analyze (py "Hello. World! How?") = 3
  ∧ SentenceCountStrategy_analyze (py "Hello...") = 1.
Proof.
  apply (sentence_count_spec (py "Wait... What?! ") (py "a?b") (py "c")
           (py " no end ") 46%N 33%N); [reflexivity | reflexivity |].
  repeat constructor.
Defined.

(** ** InflectionHighlightStrategy *)

Section Inflections.
Context {U : Unicode} {M : MorphAnalyzer}.

Implicit Types (inflections : gmap (list N) (list (list N))).
Implicit Types (w word lemma : list N) (words : list (list N)).

Lemma lemma_of_parsed w : parsed w → lemma_of w = Ok (the_lemma w).
Proof. unfold parsed, lemma_of, the_lemma. by destruct (parse w). Qed.

Lemma suffixes_of_cons lemma w words :
  suffixes_of lemma (w :: words)
  = (if decide (the_lemma w = lemma)
     then [slice_from (length lemma) w] else [])
    ++ suffixes_of lemma words.
Proof.
  unfold suffixes_of. rewrite filter_cons. by case_decide.
Qed.

Lemma suffixes_of_app lemma words1 words2 :
  suffixes_of lemma (words1 ++ words2)
  = suffixes_of lemma words1 ++ suffixes_of lemma words2.
Proof. unfold suffixes_of. by rewrite list.filter_app, fmap_app. Qed.

(** One round of the inner loop, on a dictionary that has a group for
    [lemma]. *)
Lemma scan_word_spec lemma w inflections group :
  parsed w →
  inflections !! lemma = Some group →
  scan_word lemma inflections w
  = Ok (<[lemma := group ++ suffixes_of lemma [w]]> inflections).
Proof.
  intros Hw Hgroup. unfold scan_word.
  rewrite lemma_of_parsed by done. cbn [mbind result_bind].
  rewrite suffixes_of_cons. change (suffixes_of lemma []) with (@nil (list N)).
  rewrite app_nil_r. case_decide as Hlemma.
  - unfold getitem. by rewrite Hgroup.
  - by rewrite app_nil_r, insert_id.
Qed.

(** The inner loop appends to the group of [lemma], which it expects in
    the dictionary, the suffixes of the matching words, in order. *)
Lemma scan_words_spec lemma words inflections group :
  Forall parsed words →
  inflections !! lemma = Some group →
  for_each (scan_word lemma) inflections words
  = Ok (<[lemma := group ++ suffixes_of lemma words]> inflections).
Proof.
  intros Hwords. revert inflections group.
  induction Hwords as [|w words Hw _ IH]; intros inflections group Hgroup.
  - simpl. change (suffixes_of lemma []) with (@nil (list N)).
    by rewrite app_nil_r, insert_id.
  - rewrite for_each_cons, (scan_word_spec _ _ _ group) by done.
    cbn [mbind result_bind].
    rewrite (IH _ (group ++ suffixes_of lemma [w]))
      by apply lookup_insert_eq.
    rewrite insert_insert_eq, <- (assoc_L (++)).
    by rewrite <- suffixes_of_app.
Qed.

(** One round of the outer loop replaces the group of the seed's lemma by
    the suffixes found in this round. *)
Lemma scan_seed_spec words inflections word :
  parsed word → Forall parsed words →
  scan_seed words inflections word
  = Ok (<[the_lemma word := suffixes_of (the_lemma word) words]> inflections).
Proof.
  intros Hword Hwords. unfold scan_seed.
  rewrite lemma_of_parsed by done. cbn [mbind result_bind].
  rewrite (scan_words_spec _ _ _ [] Hwords (lookup_insert_eq _ _ _)).
  by rewrite insert_insert_eq.
Qed.

Lemma scan_seeds_spec words seeds inflections :
  Forall parsed seeds → Forall parsed words →
  for_each (scan_seed words) inflections seeds
  = Ok (foldl (λ acc word,
                 <[the_lemma word := suffixes_of (the_lemma word) words]> acc)
          inflections seeds).
Proof.
  intros Hseeds Hwords. apply for_each_pure. intros acc word Hword.
  apply scan_seed_spec; [|done].
  by apply (proj1 (list.Forall_forall _ _) Hseeds).
Qed.

Lemma lookup_scan_seeds words seeds inflections lemma :
  foldl (λ acc word,
           <[the_lemma word := suffixes_of (the_lemma word) words]> acc)
    inflections seeds !! lemma
  = if decide (lemma ∈ the_lemma <$> seeds)
    then Some (suffixes_of lemma words) else inflections !! lemma.
Proof.
  revert inflections. induction seeds as [|word seeds IH];
    intros inflections.
  - rewrite decide_False by apply not_elem_of_nil. done.
  - simpl. rewrite IH.
    destruct (decide (lemma ∈ the_lemma <$> seeds)) as [Hin|Hnin].
    + by rewrite decide_True by by right.
    + destruct (decide (the_lemma word = lemma)) as [<-|Hne].
      * rewrite decide_True by left. apply lookup_insert_eq.
      * rewrite decide_False by (by intros [?|?]%elem_of_cons).
        by apply lookup_insert_ne.
Qed.

Lemma analyze_inflections_spec text seeds :
  Forall parsed seeds → Forall parsed (findall_words (lower text)) →
  InflectionHighlightStrategy_analyze text seeds
  = Ok (foldl (λ acc word,
                 <[the_lemma word
                   := suffixes_of (the_lemma word)
                        (findall_words (lower text))]> acc)
          ∅ seeds).
Proof. apply scan_seeds_spec. Qed.

Lemma map_to_list_entry {A : Type} (d : gmap (list N) A) key v :
  d !! key = Some v →
  filter (λ kv, kv.1 = key) (map_to_list d) = [(key, v)].
Proof.
  intros Hkey. apply Permutation_singleton_r.
  rewrite <- (map_to_list_delete d key v Hkey).
  rewrite filter_cons_True by done. constructor.
  apply Permutation_nil_r, elem_of_nil_inv.
  intros [k v'] [Hk Hkv%elem_of_map_to_list]%list_elem_of_filter.
  simpl in Hk. subst k. by rewrite lookup_delete_eq in Hkv.
Qed.
End Inflections.

(** C1: InflectionHighlightStrategy takes the lemma of every seed word,
    and the group it returns under that lemma holds, in text order, the
    residual suffix of each token of the text whose lemma is the seed's
    lemma, and nothing for the other tokens; the dictionary has no other
    key.  The analyzer is assumed to return a parse for the seed words and
    for the tokens. *)
Theorem inflection_groups_scan `{U : Unicode} `{M : MorphAnalyzer}
    (text : list N) (seeds : list (list N)) :
  Forall parsed seeds →
  Forall parsed (findall_words (lower text)) →
  ∃ inflections,
    InflectionHighlightStrategy_analyze text seeds = Ok inflections
    ∧ (∀ seed, seed ∈ seeds →
         inflections !! the_lemma seed
         = Some (suffixes_of (the_lemma seed) (findall_words (lower text))))
    ∧ (∀ lemma, lemma ∉ the_lemma <$> seeds → inflections !! lemma = None).
Proof.
  intros Hseeds Hwords. eexists.
  split; [by apply analyze_inflections_spec|]. split.
  - intros seed Hseed. rewrite lookup_scan_seeds.
    rewrite decide_True; [done|]. by apply list_elem_of_fmap_2.
  - intros lemma Hlemma. rewrite lookup_scan_seeds.
    by rewrite decide_False.
Qed.

Lemma inflection_groups_scan_witness :
  Forall parsed sample_seeds
  ∧ Forall parsed (findall_words (lower sample_text))
  ∧ ∃ inflections,
      InflectionHighlightStrategy_analyze sample_text sample_seeds
      = Ok inflections
      ∧ (∀ seed, seed ∈ sample_seeds →
           inflections !! the_lemma seed
           = Some (suffixes_of (the_lemma seed)
                     (findall_words (lower sample_text))))
      ∧ (∀ lemma, lemma ∉ the_lemma <$> sample_seeds →
           inflections !! lemma = None).
Proof.
  assert (H1 : Forall parsed sample_seeds)
    by (repeat constructor; by vm_compute).
  assert (H2 : Forall parsed (findall_words (lower sample_text)))
    by (vm_compute; repeat constructor; by vm_compute).
  split; [exact H1|]. split; [exact H2|].
  exact (inflection_groups_scan sample_text sample_seeds H1 H2).
Defined.

(** C4: when two seed words have the same lemma, the dictionary returned
    by InflectionHighlightStrategy has exactly one entry for that lemma.
    The round of the later seed word, in particular of the last one with
    that lemma, starts from a dictionary that already has a group for the
    lemma, replaces it by an empty one and fills it from the text; the
    group returned is the one this round leaves, which is also the group
    returned for that seed word alone. *)
Theorem inflection_groups_duplicate_seed `{U : Unicode} `{M : MorphAnalyzer}
    (text : list N) (front back : list (list N)) (last : list N) :
  Forall parsed (front ++ last :: back) →
  Forall parsed (findall_words (lower text)) →
  the_lemma last ∈ the_lemma <$> front →
  ∃ earlier later inflections alone,
    InflectionHighlightStrategy_analyze text front = Ok earlier
    ∧ is_Some (earlier !! the_lemma last)
    ∧ scan_seed (findall_words (lower text)) earlier last = Ok later
    ∧ later !! the_lemma last
      = Some (suffixes_of (the_lemma last) (findall_words (lower text)))
    ∧ InflectionHighlightStrategy_analyze text (front ++ last :: back)
      = Ok inflections
    ∧ InflectionHighlightStrategy_analyze text [last] = Ok alone
    ∧ inflections !! the_lemma last = later !! the_lemma last
    ∧ inflections !! the_lemma last = alone !! the_lemma last
    ∧ ∃ group,
        filter (λ kv, kv.1 = the_lemma last) (map_to_list inflections)
        = [(the_lemma last, group)].
Proof.
  intros Hseeds Hwords Hfront.
  pose proof Hseeds as Hall.
  rewrite list.Forall_app, list.Forall_cons in Hseeds.
  destruct Hseeds as (Hpfront & Hplast & Hpback).
  eexists _, _, _, _.
  split; [by apply analyze_inflections_spec|].
  split; [by rewrite lookup_scan_seeds, decide_True|].
  split; [by apply scan_seed_spec|].
  split; [apply lookup_insert_eq|].
  split.
  { by apply analyze_inflections_spec. }
  split; [apply analyze_inflections_spec; [by repeat constructor | done]|].
  assert (Hfinal :
    foldl (λ acc word,
             <[the_lemma word
               := suffixes_of (the_lemma word) (findall_words (lower text))]>
               acc) (∅ : gmap (list N) (list (list N)))
      (front ++ last :: back) !! the_lemma last
    = Some (suffixes_of (the_lemma last) (findall_words (lower text)))).
  { rewrite lookup_scan_seeds, decide_True; [done|].
    rewrite fmap_app, fmap_cons. apply elem_of_app. right. left. }
  split; [by rewrite Hfinal, lookup_insert_eq|].
  split; [by rewrite Hfinal; simpl; rewrite lookup_insert_eq|].
  eexists. by apply map_to_list_entry.
Qed.

Lemma inflection_groups_duplicate_seed_witness :
  Forall parsed ([py "running"; py "mice"] ++ py "ran" :: [py "mouse"])
  ∧ Forall parsed (findall_words (lower sample_text))
  ∧ the_lemma (py "ran") ∈ the_lemma <$> [py "running"; py "mice"]
  ∧ ∃ inflections group,
      InflectionHighlightStrategy_analyze sample_text
        ([py "running"; py "mice"] ++ py "ran" :: [py "mouse"])
      = Ok inflections
      ∧ filter (λ kv, kv.1 = the_lemma (py "ran")) (map_to_list inflections)
        = [(the_lemma (py "ran"), group)].
Proof.
  assert (H1 : Forall parsed
                 ([py "running"; py "mice"] ++ py "ran" :: [py "mouse"]))
    by (repeat constructor; by vm_compute).
  assert (H2 : Forall parsed (findall_words (lower sample_text)))
    by (vm_compute; repeat constructor; by vm_compute).
  assert (H3 : the_lemma (py "ran")
               ∈ the_lemma <$> [py "running"; py "mice"])
    by (vm_compute; left).
  split; [exact H1|]. split; [exact H2|]. split; [exact H3|].
  destruct (inflection_groups_duplicate_seed sample_text
              [py "running"; py "mice"] [py "mouse"] (py "ran") H1 H2 H3)
    as (earlier & later & inflections & alone & _ & _ & _ & _ & Hall
        & _ & _ & _ & group & Hgroup).
  by exists inflections, group.
Defined.

(** C10: a token whose lemma is the seed's lemma and which is not longer
    than that lemma has the empty string as residual suffix: the slice
    past the end of the token raises nothing.  The empty string takes the
    token's place in the group. *)
Theorem residual_suffix_short_token `{U : Unicode} `{M : MorphAnalyzer}
    (text seed w : list N) (pre post : list (list N)) :
  findall_words (lower text) = pre ++ w :: post →
  parsed seed →
  Forall parsed (findall_words (lower text)) →
  the_lemma w = the_lemma seed →
  length w ≤ length (the_lemma seed) →
  slice_from (length (the_lemma seed)) w = []
  ∧ ∃ inflections,
      InflectionHighlightStrategy_analyze text [seed] = Ok inflections
      ∧ inflections !! the_lemma seed
        = Some (suffixes_of (the_lemma seed) pre
                  ++ [] :: suffixes_of (the_lemma seed) post).
Proof.
  intros Htext Hseed Hwords Hlemma Hlen.
  assert (Hslice : slice_from (length (the_lemma seed)) w = [])
    by by apply drop_ge.
  split; [done|]. eexists.
  split; [apply analyze_inflections_spec; [by repeat constructor | done]|].
  simpl. rewrite lookup_insert_eq, Htext. f_equal.
  rewrite suffixes_of_app, suffixes_of_cons.
  by rewrite decide_True, Hslice by done.
Qed.

Lemma residual_suffix_short_token_witness :
  findall_words (lower (py "The mice ran"))
    = [py "the"] ++ py "mice" :: [py "ran"]
  ∧ parsed (py "mouse")
  ∧ Forall parsed (findall_words (lower (py "The mice ran")))
  ∧ the_lemma (py "mice") = the_lemma (py "mouse")
  ∧ length (py "mice") ≤ length (the_lemma (py "mouse"))
  ∧ slice_from (length (the_lemma (py "mouse"))) (py "mice") = []
  ∧ ∃ inflections,
      InflectionHighlightStrategy_analyze (py "The mice ran") [py "mouse"]
      = Ok inflections
      ∧ inflections !! the_lemma (py "mouse")
        = Some (suffixes_of (the_lemma (py "mouse")) [py "the"]
                  ++ [] :: suffixes_of (the_lemma (py "mouse")) [py "ran"]).
Proof.
  assert (H1 : findall_words (lower (py "The mice ran"))
               = [py "the"] ++ py "mice" :: [py "ran"]) by reflexivity.
  assert (H2 : parsed (py "mouse")) by by vm_compute.
  assert (H3 : Forall parsed (findall_words (lower (py "The mice ran"))))
    by (vm_compute; repeat constructor; by vm_compute).
  assert (H4 : the_lemma (py "mice") = the_lemma (py "mouse"))
    by reflexivity.
  assert (H5 : length (py "mice") ≤ length (the_lemma (py "mouse")))
    by (vm_compute; lia).
  repeat (split; [assumption|]).
  exact (residual_suffix_short_token (py "The mice ran") (py "mouse")
           (py "mice") [py "the"] [py "ran"] H1 H2 H3 H4 H5).
Defined.

(** ** The empty text *)

(** C8: on the empty text nothing is raised: AbsoluteFrequencyStrategy and
    RelativeFrequencyStrategy return the empty table, SentenceCountStrategy
    and UniqueWordsCountStrategy return 0, and InflectionHighlightStrategy
    returns the dictionary that maps the lemma of every seed word to the
    empty list.  The empty string is assumed to be its own lowercase form
    and the analyzer to return a parse for the seed words. *)
Theorem empty_text_results `{U : Unicode} `{M : MorphAnalyzer}
    `{F : FloatArith} (selected_words : list (list N)) :
  lower [] = [] →
  Forall parsed selected_words →
  Strategy_analyze AbsoluteFrequencyStrategy [] [] = Ok (PyCounter ∅)
  ∧ Strategy_analyze RelativeFrequencyStrategy [] [] = Ok (PyDictFloat ∅)
  ∧ Strategy_analyze SentenceCountStrategy [] [] = Ok (PyInt 0)
  ∧ Strategy_analyze UniqueWordsCountStrategy [] [] = Ok (PyInt 0)
  ∧ Strategy_analyze InflectionHighlightStrategy [] [selected_words]
    = Ok (PyDictList
            (gset_to_gmap [] (list_to_set (the_lemma <$> selected_words)))).
Proof.
  intros Hlower Hseeds.
  assert (Hwords : findall_words (lower []) = []) by by rewrite Hlower.
  repeat split.
  - unfold Strategy_analyze, AbsoluteFrequencyStrategy_analyze.
    by rewrite Hwords.
  - unfold Strategy_analyze.
    by rewrite relative_frequency_empty.
  - unfold Strategy_analyze, UniqueWordsCountStrategy_analyze.
    by rewrite Hwords.
  - unfold Strategy_analyze.
    rewrite analyze_inflections_spec by (done || by rewrite Hwords).
    cbn [fmap result_fmap]. do 2 f_equal. apply map_eq. intros lemma.
    rewrite lookup_scan_seeds, lookup_gset_to_gmap, Hwords.
    destruct (decide (lemma ∈ the_lemma <$> selected_words)) as [Hin|Hnin].
    + by rewrite option_guard_True by by apply elem_of_list_to_set.
    + rewrite option_guard_False; [done|].
      by rewrite elem_of_list_to_set.
Qed.

Lemma empty_text_results_witness :
  lower [] = []
  ∧ Forall parsed sample_seeds
  ∧ Strategy_analyze AbsoluteFrequencyStrategy [] [] = Ok (PyCounter ∅)
  ∧ Strategy_analyze RelativeFrequencyStrategy [] [] = Ok (PyDictFloat ∅)
  ∧ Strategy_analyze SentenceCountStrategy [] [] = Ok (PyInt 0)
  ∧ Strategy_analyze UniqueWordsCountStrategy [] [] = Ok (PyInt 0)
  ∧ Strategy_analyze InflectionHighlightStrategy [] [sample_seeds]
    = Ok (PyDictList
            (gset_to_gmap [] (list_to_set (the_lemma <$> sample_seeds)))).
Proof.
  assert (H1 : lower [] = []) by reflexivity.
  assert (H2 : Forall parsed sample_seeds)
    by (repeat constructor; by vm_compute).
  split; [exact H1|]. split; [exact H2|].
  exact (empty_text_results sample_seeds H1 H2).
Defined.

(** ** TextAnalyzer *)

(** C9: [TextAnalyzer.analyze] returns what the [analyze] method of the
    strategy it holds returns on the same text and extra arguments, be the
    strategy given at construction or by [set_strategy]. *)
Theorem text_analyzer_dispatch `{U : Unicode} `{M : MorphAnalyzer}
    `{F : FloatArith} (strategy previous : Strategy) (text : list N)
    (args : list (list (list N))) :
  TextAnalyzer_analyze (TextAnalyzer_init strategy) text args
    = Strategy_analyze strategy text args
  ∧ TextAnalyzer_analyze
      (set_strategy (TextAnalyzer_init previous) strategy) text args
    = Strategy_analyze strategy text args.
Proof. split; reflexivity. Qed.

(** ** The case of the seed words *)





(** The seed word [Ran] and its lowercase form both give the key [run], with
    the suffixes of the tokens that start with it. *)
Example seed_words_case_run :
  @InflectionHighlightStrategy_analyze ascii_tables
    (pymorphy2_MorphAnalyzer (@parse toy_morph)) (py "run runs Running")
    [py "Ran"]
  = Ok {[ py "run" := [py ""; py "s"; py "ning"] ]}
  ∧ @InflectionHighlightStrategy_analyze ascii_tables
      (pymorphy2_MorphAnalyzer (@parse toy_morph)) (py "run runs Running")
      [py "ran"]
    = Ok {[ py "run" := [py ""; py "s"; py "ning"] ]}.
Proof. split; by vm_compute. Qed.

(** * Further properties of the code *)

(** ** Counter and the frequency tables *)

Lemma occurrences_cons (w w0 : list N) (words : list (list N)) :
  occurrences w (w0 :: words)
  = (if decide (w0 = w) then 1 else 0) + occurrences w words.
Proof. unfold occurrences. rewrite filter_cons. by case_decide. Qed.

Lemma occurrences_elem_of (w : list N) (words : list (list N)) :
  w ∈ words ↔ 0 < occurrences w words.
Proof.
  induction words as [|w0 words IH].
  - split; [by intros ?%elem_of_nil | unfold occurrences; simpl; lia].
  - rewrite occurrences_cons, elem_of_cons, IH.
    destruct (decide (w0 = w)) as [->|Hne].
    + split; [lia | by left].
    + split; [intros [->|?]; [done | lia] | intros ?; right; lia].
Qed.

Lemma occurrences_le (w : list N) (words : list (list N)) :
  occurrences w words ≤ length words.
Proof. apply length_filter. Qed.

Lemma count_foldl (words : list (list N)) (freq : gmap (list N) nat)
    (w : list N) :
  default 0
    (foldl (λ freq w, <[w := S (default 0 (freq !! w))]> freq) freq words
     !! w)
  = default 0 (freq !! w) + occurrences w words.
Proof.
  revert freq. induction words as [|w0 words IH]; intros freq; simpl.
  - unfold occurrences. simpl. lia.
  - rewrite IH, occurrences_cons, lookup_insert. case_decide; simpl.
    + subst w0. lia.
    + lia.
Qed.

Lemma absent_foldl (words : list (list N)) (freq : gmap (list N) nat)
    (w : list N) :
  foldl (λ freq w, <[w := S (default 0 (freq !! w))]> freq) freq words !! w
  = None
  ↔ freq !! w = None ∧ w ∉ words.
Proof.
  revert freq. induction words as [|w0 words IH]; intros freq; simpl.
  - split; [intros ?; split; [done | apply not_elem_of_nil] | by intros []].
  - rewrite IH, lookup_insert, not_elem_of_cons. case_decide.
    + subst w0. split; [by intros [] | by intros [_ []]].
    + split; [intros []; repeat split; congruence | by intros (? & ? & ?)].
Qed.

Lemma lookup_Counter (words : list (list N)) (w : list N) :
  Counter words !! w
  = if decide (w ∈ words) then Some (occurrences w words) else None.
Proof.
  unfold Counter. case_decide as Hw.
  - pose proof (count_foldl words ∅ w) as Hcount.
    rewrite lookup_empty in Hcount. simpl in Hcount.
    destruct (foldl _ ∅ words !! w) as [n|] eqn:Hn.
    + simpl in Hcount. by subst n.
    + apply absent_foldl in Hn as [_ Hn]. done.
  - apply absent_foldl. split; [apply lookup_empty | done].
Qed.

(** X1: the table of AbsoluteFrequencyStrategy has, for every token of the
    lowercased text, its number of occurrences among the tokens, and no
    entry for a string that is not a token. *)
Theorem absolute_frequency_counts `{U : Unicode} (text w : list N) :
  AbsoluteFrequencyStrategy_analyze text !! w
  = if decide (w ∈ findall_words (lower text))
    then Some (occurrences w (findall_words (lower text)))
    else None.
Proof. unfold AbsoluteFrequencyStrategy_analyze. apply lookup_Counter. Qed.

(** X2: every entry of the table of AbsoluteFrequencyStrategy has a
    non-empty key made of word characters and a count between 1 and the
    number of tokens. *)
Theorem absolute_frequency_entries `{U : Unicode} (text w : list N)
    (count : nat) :
  AbsoluteFrequencyStrategy_analyze text !! w = Some count →
  w ≠ [] ∧ Forall (λ c, isword c = true) w
  ∧ 1 ≤ count ≤ length (findall_words (lower text)).
Proof.
  unfold AbsoluteFrequencyStrategy_analyze. rewrite lookup_Counter.
  case_decide as Hw; [|done]. intros [= <-].
  pose proof (findall_words_tokens (lower text)) as Htokens.
  rewrite list.Forall_forall in Htokens.
  destruct (Htokens w Hw) as [Hne Hword].
  repeat split; [done | done | | apply occurrences_le].
  by apply occurrences_elem_of.
Qed.

Lemma absolute_frequency_entries_witness :
  AbsoluteFrequencyStrategy_analyze (py "A rose is a rose") !! py "rose"
    = Some 2
  ∧ py "rose" ≠ [] ∧ Forall (λ c, isword c = true) (py "rose")
  ∧ 1 ≤ 2 ≤ length (findall_words (lower (py "A rose is a rose"))).
Proof.
  assert (H : AbsoluteFrequencyStrategy_analyze (py "A rose is a rose")
              !! py "rose" = Some 2) by by vm_compute.
  split; [exact H|].
  exact (absolute_frequency_entries (py "A rose is a rose") (py "rose") 2 H).
Defined.

(** ** UniqueWordsCountStrategy *)

Lemma dom_Counter (words : list (list N)) :
  dom (Counter words) = list_to_set words.
Proof.
  apply set_eq. intros w.
  rewrite elem_of_dom, lookup_Counter, elem_of_list_to_set.
  case_decide; split; (done || by intros [? ?]).
Qed.

Lemma size_list_to_set_le (l : list (list N)) :
  size (list_to_set l : gset (list N)) ≤ length l.
Proof.
  induction l as [|x l IH].
  - by rewrite list_to_set_nil, size_empty.
  - rewrite list_to_set_cons, size_union_alt, size_singleton. simpl.
    assert (size (list_to_set l ∖ {[x]} : gset (list N))
            ≤ size (list_to_set l : gset (list N)))
      by (apply subseteq_size, subseteq_difference_l; done).
    lia.
Qed.

(** X3: the number returned by UniqueWordsCountStrategy is the number of
    entries of the table of AbsoluteFrequencyStrategy; it is at most the
    number of tokens, and it is 0 exactly when the text has no token. *)
Theorem unique_words_count_spec `{U : Unicode} (text : list N) :
  UniqueWordsCountStrategy_analyze text
    = size (AbsoluteFrequencyStrategy_analyze text)
  ∧ UniqueWordsCountStrategy_analyze text
    ≤ length (findall_words (lower text))
  ∧ (UniqueWordsCountStrategy_analyze text = 0
     ↔ findall_words (lower text) = []).
Proof.
  unfold UniqueWordsCountStrategy_analyze, AbsoluteFrequencyStrategy_analyze.
  split; [by rewrite <- dom_Counter, size_dom|].
  split; [apply size_list_to_set_le|].
  split.
  - intros Hsize. apply (size_empty_inv (C:=gset (list N))) in Hsize.
    destruct (findall_words (lower text)) as [|w words]; [done|].
    exfalso. apply (not_elem_of_empty (C:=gset (list N)) w).
    apply Hsize. apply elem_of_list_to_set. left.
  - intros ->. by rewrite list_to_set_nil, size_empty.
Qed.

(** ** Binary64: rounding to nearest *)

(** On the quotients of the integers up to 40 and on their products with
    100.0, [RN] and [b64_mul] give the floats that the division and the
    multiplication of the specification of IEEE 754 in the Standard Library
    give; so they do on quotients at the ends of the range of the floats. *)
Example RN_SFdiv :
  forallb (λ a, forallb (λ b,
      SF_same (RN false a b)
        (SFdiv 53 1024 (S754_finite false a 0) (S754_finite false b 0)))
    (first_ints 40)) (first_ints 40) = true
  ∧ forallb (λ '(a, b),
      SF_same (RN false a b)
        (SFdiv 53 1024 (S754_finite false a 0) (S754_finite false b 0)))
      [(1, 2 ^ 1070); (3, 2 ^ 1074); (3, 2 ^ 1075); (1, 2 ^ 1075);
       (2 ^ 1030, 3); (2 ^ 1024 - 1, 1); (2 ^ 1024 - 2 ^ 970, 1);
       (2 ^ 1024 - 2 ^ 970 - 1, 1); (2 ^ 53 + 1, 1); (2 ^ 53 + 3, 1);
       (2 ^ 54 - 1, 3)]%positive = true.
Proof. split; by vm_compute. Qed.

Example b64_mul_SFmul :
  forallb (λ a, forallb (λ b,
      SF_same (b64_mul (RN false a b) hundred)
        (SFmul 53 1024 (RN false a b) hundred))
    (first_ints 40)) (first_ints 40) = true.
Proof. by vm_compute. Qed.

Section Rounding.
Local Open Scope Z_scope.

Lemma pow2_pos (k : Z) : 0 ≤ k → 0 < 2 ^ k.
Proof. intros. by apply Z.pow_pos_nonneg. Qed.

Lemma pow2_lt_inv (a b : Z) : 0 ≤ a → 0 ≤ b → 2 ^ a < 2 ^ b → a < b.
Proof. intros Ha Hb H. apply (Z.pow_lt_mono_r_iff 2); [lia | lia | done]. Qed.

Lemma binade_spec (n d : positive) :
  let s := Z.log2 (Zpos d) + 1 in
  let l := binade n d + s in
  0 < s ∧ 0 ≤ l
  ∧ 2 ^ l * Zpos d ≤ Zpos n * 2 ^ s < 2 ^ (l + 1) * Zpos d
  ∧ Zpos d < 2 ^ s ≤ 2 * Zpos d.
Proof.
  intros s l.
  assert (Hs : 0 < s) by (pose proof (Z.log2_nonneg (Zpos d)); unfold s; lia).
  assert (Hd : 2 ^ (s - 1) ≤ Zpos d < 2 ^ s).
  { unfold s. rewrite Z.add_simpl_r, Z.add_1_r. apply Z.log2_spec. lia. }
  assert (Hs2 : 2 ^ s = 2 * 2 ^ (s - 1)).
  { rewrite <- Z.pow_succ_r by lia. f_equal. lia. }
  assert (Hq : 1 ≤ Zpos n * 2 ^ s / Zpos d).
  { apply Z.div_le_lower_bound; [lia|]. nia. }
  assert (Hl : l = Z.log2 (Zpos n * 2 ^ s / Zpos d))
    by (unfold l, binade; fold s; lia).
  pose proof (Z.log2_nonneg (Zpos n * 2 ^ s / Zpos d)) as Hl0.
  destruct (Z.log2_spec (Zpos n * 2 ^ s / Zpos d)) as [Hlo Hhi]; [lia|].
  rewrite <- Hl in Hlo, Hhi.
  split; [done|]. split; [lia|]. split; [|lia]. split.
  - pose proof (Z.mul_div_le (Zpos n * 2 ^ s) (Zpos d)). nia.
  - replace (l + 1) with (Z.succ l) by lia.
    pose proof (Z.mul_succ_div_gt (Zpos n * 2 ^ s) (Zpos d)). nia.
Qed.

Lemma round_half_even_spec (num den : Z) :
  0 < den → 0 ≤ num →
  num / den ≤ round_half_even num den ≤ num / den + 1
  ∧ 2 * Z.abs (round_half_even num den * den - num) ≤ den
  ∧ (∀ K, num ≤ K * den → round_half_even num den ≤ K)
  ∧ (∀ K, K * den ≤ num → K ≤ round_half_even num den).
Proof.
  intros Hden Hnum. unfold round_half_even.
  pose proof (Z.div_mod num den ltac:(lia)) as Hdiv.
  pose proof (Z.mod_pos_bound num den Hden) as Hmod.
  set (q := num / den) in *. set (r := num mod den) in *.
  assert (Hup : ∀ K, num ≤ K * den → q ≤ K ∧ (q = K → r = 0)) by (intros K HK; nia).
  assert (Hlo : ∀ K, K * den ≤ num → K ≤ q) by (intros K HK; nia).
  destruct (Z.compare_spec (2 * r) den) as [Heq|Hlt|Hgt].
  - destruct (Z.even q).
    + repeat split; try lia; [intros K HK; by apply Hup | by apply Hlo].
    + repeat split; try lia.
      * intros K HK. destruct (Hup K HK) as [? Hr].
        destruct (decide (q = K)) as [HqK|]; [specialize (Hr HqK)|]; lia.
      * intros K HK. specialize (Hlo K HK). lia.
  - repeat split; try lia; [intros K HK; by apply Hup | by apply Hlo].
  - repeat split; try lia.
    + intros K HK. destruct (Hup K HK) as [? Hr].
      destruct (decide (q = K)) as [HqK|]; [specialize (Hr HqK)|]; lia.
    + intros K HK. specialize (Hlo K HK). lia.
Qed.

(** The rationals that round to a normal number below 1024. *)
Lemma binade_range (n d : positive) :
  in_range n d → -1022 ≤ binade n d ≤ 9.
Proof.
  intros [H1 H2].
  destruct (binade_spec n d) as (Hs & Hl & [Hlo Hhi] & Hd1 & Hd2).
  set (s := Z.log2 (Zpos d) + 1) in *. set (l := binade n d + s) in *.
  assert (Hle : l < 10 + s).
  { apply pow2_lt_inv; [lia | lia |]. rewrite Z.pow_add_r by lia.
    pose proof (pow2_pos s ltac:(lia)). pose proof (pow2_pos l ltac:(lia)).
    nia. }
  assert (Hge : s < 1023 + l).
  { apply pow2_lt_inv; [lia | lia |].
    replace (1023 + l) with (1022 + (l + 1)) by lia.
    rewrite Z.pow_add_r by lia.
    pose proof (pow2_pos s ltac:(lia)). pose proof (pow2_pos (l + 1) ltac:(lia)).
    pose proof (pow2_pos 1022 ltac:(lia)).
    set (a := 2 ^ 1022) in *. set (b := 2 ^ (l + 1)) in *.
    set (c := 2 ^ s) in *. nia. }
  unfold l in *. lia.
Qed.

Lemma binade_scaled (n d : positive) :
  in_range n d →
  2 ^ 52 * Zpos d ≤ Zpos n * 2 ^ (52 - binade n d) < 2 ^ 53 * Zpos d.
Proof.
  intros Hrange. pose proof (binade_range n d Hrange) as HE.
  destruct (binade_spec n d) as (Hs & Hl & [Hlo Hhi] & _).
  set (s := Z.log2 (Zpos d) + 1) in *. set (E := binade n d) in *.
  set (l := E + s) in *.
  replace (2 ^ 53) with (2 * 2 ^ 52) by done.
  rewrite Z.pow_add_r in Hhi by lia. change (2 ^ 1) with 2 in Hhi.
  destruct (decide (l ≤ 52)) as [Hl52|Hl52].
  - replace (52 - E) with (s + (52 - l)) by lia.
    rewrite Z.pow_add_r by lia.
    replace (2 ^ 52) with (2 ^ l * 2 ^ (52 - l))
      by (rewrite <- Z.pow_add_r by lia; f_equal; lia).
    pose proof (pow2_pos (52 - l) ltac:(lia)).
    set (a := 2 ^ (52 - l)) in *. set (b := 2 ^ l) in *. set (c := 2 ^ s) in *.
    nia.
  - assert (Hs' : 2 ^ s = 2 ^ (52 - E) * 2 ^ (l - 52))
      by (rewrite <- Z.pow_add_r by lia; f_equal; lia).
    assert (Hl' : 2 ^ l = 2 ^ 52 * 2 ^ (l - 52))
      by (rewrite <- Z.pow_add_r by lia; f_equal; lia).
    rewrite Hs', Hl' in *.
    pose proof (pow2_pos (l - 52) ltac:(lia)).
    pose proof (pow2_pos (52 - E) ltac:(lia)).
    set (a := 2 ^ (l - 52)) in *. set (b := 2 ^ (52 - E)) in *.
    set (c := 2 ^ 52) in *. nia.
Qed.

Lemma RN_normal (n d : positive) :
  in_range n d →
  ∃ (m : positive) (t : Z),
    0 < t ∧ RN false n d = S754_finite false m (- t)
    ∧ 2 ^ 53 * Z.abs (Zpos m * Zpos d - Zpos n * 2 ^ t) ≤ Zpos n * 2 ^ t
    ∧ (∀ K, Zpos n ≤ K * Zpos d → Zpos m ≤ K * 2 ^ t).
Proof.
  intros Hrange. pose proof (binade_range n d Hrange) as HE.
  pose proof (binade_scaled n d Hrange) as [Hlo52 Hhi53].
  unfold RN. set (E := binade n d) in *.
  rewrite (Z.max_l (E - 52) (-1074)) by lia.
  rewrite (Z.max_r 0 (- (E - 52))) by lia.
  rewrite (Z.max_l 0 (E - 52)) by lia.
  rewrite Z.pow_0_r, Z.mul_1_r. replace (- (E - 52)) with (52 - E) by lia.
  pose proof (pow2_pos (52 - E) ltac:(lia)) as Hpow.
  destruct (round_half_even_spec (Zpos n * 2 ^ (52 - E)) (Zpos d))
    as (Hq & Habs & Hup & Hlo); [lia | nia |].
  set (m := round_half_even (Zpos n * 2 ^ (52 - E)) (Zpos d)) in *.
  assert (Hm52 : 2 ^ 52 ≤ m) by (by apply Hlo).
  assert (Hm53 : m ≤ 2 ^ 53) by (apply Hup; lia).
  destruct (Z.eqb_spec m (2 ^ 53)) as [Hcarry|Hcarry].
  - change (2 ^ 52) with (Zpos 4503599627370496).
    rewrite (proj2 (Z.leb_le _ _)) by lia.
    exists 4503599627370496%positive, (52 - E - 1).
    split; [lia|]. split; [f_equal; lia|].
    assert (H2 : 2 ^ (52 - E) = 2 * 2 ^ (52 - E - 1)).
    { rewrite <- Z.pow_succ_r by lia. f_equal. lia. }
    pose proof (pow2_pos (52 - E - 1) ltac:(lia)) as Hpow'.
    rewrite H2 in *. rewrite Hcarry in *.
    change (2 ^ 53) with (2 * 4503599627370496) in *.
    change (2 ^ 52) with 4503599627370496 in *.
    set (P := 2 ^ (52 - E - 1)) in *.
    split; [lia|]. intros K HK. specialize (Hup (K * (2 * P))). nia.
  - destruct m as [|p|p] eqn:Hp; [lia | | lia].
    rewrite (proj2 (Z.leb_le _ _)) by lia.
    exists p, (52 - E). split; [lia|]. split; [f_equal; lia|].
    change (2 ^ 53) with (2 * 4503599627370496) in *.
    change (2 ^ 52) with 4503599627370496 in *.
    set (P := 2 ^ (52 - E)) in *.
    split; [lia|]. intros K HK. apply Hup. nia.
Qed.

Lemma in_range_quotient (c T : positive) :
  Zpos c ≤ Zpos T → Zpos T ≤ 2 ^ 1022 → in_range c T.
Proof.
  intros Hc HT. split.
  - change (2 ^ 10) with 1024. lia.
  - pose proof (pow2_pos 1022 ltac:(lia)). set (A := 2 ^ 1022) in *. nia.
Qed.

Lemma b64_percentage_rounding (c T : positive) :
  Zpos c ≤ Zpos T → Zpos T ≤ 2 ^ 1022 →
  ∃ (m m2 : positive) (t t2 : Z),
    0 < t ∧ 0 < t2
    ∧ RN false c T = S754_finite false m (- t)
    ∧ b64_mul (S754_finite false m (- t)) hundred
      = S754_finite false m2 (- t2)
    ∧ Zpos m2 ≤ 100 * 2 ^ t2
    ∧ (2 ^ 53 - 1) * (2 ^ 53 - 1) * (100 * Zpos c * 2 ^ t2)
      ≤ 2 ^ 53 * 2 ^ 53 * (Zpos m2 * Zpos T)
    ∧ 2 ^ 53 * 2 ^ 53 * (Zpos m2 * Zpos T)
      ≤ (2 ^ 53 + 1) * (2 ^ 53 + 1) * (100 * Zpos c * 2 ^ t2).
Proof.
  intros Hc HT.
  destruct (RN_normal c T (in_range_quotient c T Hc HT))
    as (m & t & Ht & Hx & Herr & Hgrid).
  pose proof (pow2_pos t ltac:(lia)) as HP.
  pose proof (Hgrid 1 ltac:(lia)) as Hm1.
  assert (Hrange2 : in_range (m * 7036874417766400 * Z.to_pos (2 ^ Z.max 0 (- t + -46)))
                      (Z.to_pos (2 ^ Z.max 0 (- (- t + -46))))).
  { rewrite (Z.max_l 0 (- t + -46)) by lia.
    rewrite (Z.max_r 0 (- (- t + -46))) by lia.
    replace (- (- t + -46)) with (t + 46) by lia.
    change (Z.to_pos (2 ^ 0)) with 1%positive. rewrite Pos.mul_1_r.
    pose proof (pow2_pos (t + 46) ltac:(lia)) as HP2.
    unfold in_range. rewrite Z2Pos.id by lia. rewrite Pos2Z.inj_mul.
    rewrite Z.pow_add_r by lia. change (2 ^ 46) with 70368744177664.
    change (2 ^ 10) with 1024.
    pose proof (pow2_pos 1022 ltac:(lia)) as HA.
    change (2 ^ 53) with 9007199254740992 in Herr.
    set (A := 2 ^ 1022) in *. set (P := 2 ^ t) in *.
    split; [nia|]. 
    assert (9007199254740991 * P ≤ 9007199254740992 * (Zpos m * Zpos T)) by nia.
    assert (9007199254740992 * (Zpos m * Zpos T) ≤ 9007199254740992 * (Zpos m * A)) by nia.
    nia. }
  destruct (RN_normal _ _ Hrange2) as (m2 & t2 & Ht2 & Hy & Herr2 & Hgrid2).
  exists m, m2, t, t2. split; [done|]. split; [done|]. split; [done|].
  split; [exact Hy|].
  revert Herr2 Hgrid2.
  rewrite (Z.max_l 0 (- t + -46)) by lia.
  rewrite (Z.max_r 0 (- (- t + -46))) by lia.
  replace (- (- t + -46)) with (t + 46) by lia.
  change (Z.to_pos (2 ^ 0)) with 1%positive. rewrite Pos.mul_1_r.
  pose proof (pow2_pos (t + 46) ltac:(lia)) as HP2.
  rewrite Z2Pos.id by lia. rewrite Pos2Z.inj_mul.
  rewrite Z.pow_add_r by lia. change (2 ^ 46) with 70368744177664.
  pose proof (pow2_pos t2 ltac:(lia)) as HP3.
  change (2 ^ 53) with 9007199254740992 in *.
  set (P := 2 ^ t) in *. set (P2 := 2 ^ t2) in *.
  intros Herr2 Hgrid2.
  split.
  { apply Hgrid2. nia. }
  assert (Hx1 : 9007199254740991 * (Zpos c * P) ≤ 9007199254740992 * (Zpos m * Zpos T)) by lia.
  assert (Hx2 : 9007199254740992 * (Zpos m * Zpos T) ≤ 9007199254740993 * (Zpos c * P)) by lia.
  assert (Hy1 : 9007199254740991 * (100 * Zpos m * P2) ≤ 9007199254740992 * (Zpos m2 * P)) by lia.
  assert (Hy2 : 9007199254740992 * (Zpos m2 * P) ≤ 9007199254740993 * (100 * Zpos m * P2)) by lia.
  clear Herr Herr2 Hgrid Hgrid2 Hx Hy Hrange2.
  split.
  - apply (Z.mul_le_mono_pos_r _ _ P HP).
    transitivity (9007199254740991 * (100 * P2) * (9007199254740992 * (Zpos m * Zpos T))).
    + nia.
    + nia.
  - apply (Z.mul_le_mono_pos_r _ _ P HP).
    transitivity (9007199254740993 * (100 * P2) * (9007199254740992 * (Zpos m * Zpos T))).
    + nia.
    + nia.
Qed.
End Rounding.

Lemma SF2Q_fraction (m : positive) (t : Z) :
  (0 < t)%Z →
  (SF2Q (S754_finite false m (- t)) == (Zpos m # Z.to_pos (2 ^ t)))%Q.
Proof.
  intros Ht. unfold SF2Q.
  rewrite (Z.max_l 0 (- t)) by lia. rewrite (Z.max_r 0 (- - t)) by lia.
  rewrite Z.opp_involutive, Z.pow_0_r, Z.mul_1_r. apply Qmult_1_l.
Qed.

Lemma b64_percentage_Q (c T : positive) :
  (Zpos c ≤ Zpos T)%Z → (Zpos T ≤ 2 ^ 1022)%Z →
  ∃ x y : spec_float,
    RN false c T = x ∧ b64_mul x hundred = y
    ∧ (∃ m e, y = S754_finite false m e)
    ∧ ((1 - u64) * (1 - u64) * (100 * Zpos c # T) <= SF2Q y)%Q
    ∧ (SF2Q y <= (1 + u64) * (1 + u64) * (100 * Zpos c # T))%Q
    ∧ (0 < SF2Q y)%Q ∧ (SF2Q y <= 100)%Q.
Proof.
  intros Hc HT.
  destruct (b64_percentage_rounding c T Hc HT)
    as (m & m2 & t & t2 & Ht & Ht2 & Hx & Hy & Hgrid & Hlo & Hhi).
  exists (S754_finite false m (- t)), (S754_finite false m2 (- t2)).
  split; [done|]. split; [done|]. split; [by eexists _, _|].
  pose proof (pow2_pos t2 ltac:(lia)) as HP2.
  rewrite (SF2Q_fraction m2 t2 Ht2).
  assert (Hlo' : ((1 - u64) * (1 - u64)
                 == ((2 ^ 53 - 1) * (2 ^ 53 - 1) # 2 ^ 53 * 2 ^ 53))%Q)
    by reflexivity.
  assert (Hhi' : ((1 + u64) * (1 + u64)
                 == ((2 ^ 53 + 1) * (2 ^ 53 + 1) # 2 ^ 53 * 2 ^ 53))%Q)
    by reflexivity.
  rewrite Hlo', Hhi'.
  change (2 ^ 53)%Z with 9007199254740992%Z in *.
  unfold Qle, Qlt, Qmult. cbn [Qnum Qden].
  rewrite !Pos2Z.inj_mul, !Z2Pos.id by lia.
  set (P2 := (2 ^ t2)%Z) in *.
  change (Z.pos (2 ^ 53)) with 9007199254740992%Z.
  repeat split; lia.
Qed.

(** A quotient that is at most 1 is never beyond the largest float. *)
Lemma binade_quotient (c T : positive) :
  (Zpos c ≤ Zpos T)%Z → (binade c T ≤ 0)%Z.
Proof.
  intros Hc.
  destruct (binade_spec c T) as (Hs & Hl & [Hlo Hhi] & _).
  set (s := (Z.log2 (Zpos T) + 1)%Z) in *.
  set (l := (binade c T + s)%Z) in *.
  assert (Hle : (l ≤ s)%Z).
  { apply (Z.pow_le_mono_r_iff 2); [lia | lia |].
    pose proof (pow2_pos s ltac:(lia)). pose proof (pow2_pos l ltac:(lia)).
    nia. }
  unfold l in Hle. lia.
Qed.

Lemma RN_quotient_finite (c T : positive) (s : bool) :
  (Zpos c ≤ Zpos T)%Z → RN false c T ≠ S754_infinity s.
Proof.
  intros Hc. pose proof (binade_quotient c T Hc) as HE. unfold RN.
  set (e := Z.max (binade c T - 52) (-1074)).
  assert (He : (e ≤ -52)%Z) by (unfold e; lia).
  destruct (_ =? _)%Z.
  - change (2 ^ 52)%Z with (Zpos 4503599627370496).
    rewrite (proj2 (Z.leb_le _ _)) by lia. done.
  - destruct (round_half_even _ _); [done | | done].
    rewrite (proj2 (Z.leb_le _ _)) by lia. done.
Qed.

Lemma Pos_of_nat_Z (n : nat) : 1 ≤ n → Zpos (Pos.of_nat n) = Z.of_nat n.
Proof. intros Hn. rewrite <- positive_nat_Z, Nat2Pos.id by lia. done. Qed.

Lemma float_of_int_100 : @float_of_int binary64 100 = Some hundred.
Proof. by vm_compute. Qed.

(** [count / total] and [(count / total) * 100] in binary64, for a count
    between 1 and the total: neither raises. *)
Lemma b64_truediv (count total : nat) :
  1 ≤ count ≤ total →
  @truediv binary64 count total
  = Ok (RN false (Pos.of_nat count) (Pos.of_nat total)).
Proof.
  intros [Hcount Htotal]. unfold truediv.
  destruct total as [|total]; [lia|].
  cbn [int_truediv binary64]. unfold b64_quotient.
  destruct count as [|count]; [lia|].
  pose proof (RN_quotient_finite (Pos.of_nat (S count))
                (Pos.of_nat (S total))) as Hfinite.
  rewrite !Pos_of_nat_Z in Hfinite by lia.
  destruct (RN false _ _) as [| s | |]; try done.
  destruct (Hfinite s); [lia | done].
Qed.

Lemma b64_percentage_value (count total : nat) :
  1 ≤ count ≤ total →
  (q ← @truediv binary64 count total; mul_int q 100)
  = Ok (b64_percentage total count).
Proof.
  intros Hcount. rewrite b64_truediv by done. cbn [mbind result_bind].
  unfold mul_int. by rewrite float_of_int_100.
Qed.

Lemma b64_percentage_bounds (total count : nat) :
  1 ≤ count ≤ total → (Z.of_nat total ≤ 2 ^ 1022)%Z →
  (∃ m e, b64_percentage total count = S754_finite false m e)
  ∧ ((1 - u64) * (1 - u64) * (100 * Z.of_nat count # Pos.of_nat total)
       <= SF2Q (b64_percentage total count))%Q
  ∧ (SF2Q (b64_percentage total count)
       <= (1 + u64) * (1 + u64) * (100 * Z.of_nat count # Pos.of_nat total))%Q
  ∧ (0 < SF2Q (b64_percentage total count))%Q
  ∧ (SF2Q (b64_percentage total count) <= 100)%Q.
Proof.
  intros [Hcount Htotal] Hrange.
  destruct (b64_percentage_Q (Pos.of_nat count) (Pos.of_nat total))
    as (x & y & Hx & Hy & Hfinite & Hlo & Hhi & Hpos & Hle).
  - rewrite !Pos_of_nat_Z by lia. lia.
  - rewrite Pos_of_nat_Z by lia. done.
  - unfold b64_percentage. rewrite Hx, Hy.
    rewrite Pos_of_nat_Z in Hlo, Hhi by lia. done.
Qed.

(** ** RelativeFrequencyStrategy on every text *)

Lemma Counter_entry (words : list (list N)) (w : list N) (count : nat) :
  Counter words !! w = Some count → 1 ≤ count ≤ length words.
Proof.
  rewrite lookup_Counter. case_decide as Hw; [|done]. intros [= <-].
  split; [by apply occurrences_elem_of | apply occurrences_le].
Qed.

Lemma relative_frequency_lookup `{U : Unicode} (text : list N) :
  ∃ rel_freq : gmap (list N) Qc,
    @RelativeFrequencyStrategy_analyze U exact_rationals text = Ok rel_freq
    ∧ ∀ w, rel_freq !! w
           = percentage (length (findall_words (lower text)))
               <$> AbsoluteFrequencyStrategy_analyze text !! w.
Proof.
  unfold AbsoluteFrequencyStrategy_analyze.
  destruct (decide (findall_words (lower text) = [])) as [Hwords|Hwords].
  - exists ∅.
    split; [by apply (relative_frequency_empty (F:=exact_rationals))|].
    intros w. rewrite Hwords. unfold Counter. simpl. by rewrite !lookup_empty.
  - eexists. split; [by apply relative_frequency_table|].
    intros w. by rewrite lookup_fmap.
Qed.

(** In binary64, the table holds for every count the float nearest to 100
    times the float nearest to the count divided by the number of
    tokens. *)
Lemma b64_relative_frequency_table `{U : Unicode} (text : list N) :
  @RelativeFrequencyStrategy_analyze U binary64 text
  = Ok (b64_percentage (length (findall_words (lower text)))
          <$> Counter (findall_words (lower text))).
Proof.
  unfold RelativeFrequencyStrategy_analyze.
  apply (dict_comprehension_pure (B:=spec_float)). intros k count Hk.
  apply b64_percentage_value. by apply (Counter_entry _ k).
Qed.

(** X4: RelativeFrequencyStrategy never raises: no count is divided by
    zero and no quotient is beyond the largest float.  Its table has the
    keys of the table of AbsoluteFrequencyStrategy, and the value of a key
    is the float nearest to 100 times the float nearest to its count
    divided by the number of tokens. *)
Theorem relative_frequency_total `{U : Unicode} (text : list N) :
  ∃ rel_freq : gmap (list N) spec_float,
    @RelativeFrequencyStrategy_analyze U binary64 text = Ok rel_freq
    ∧ dom rel_freq = dom (AbsoluteFrequencyStrategy_analyze text)
    ∧ ∀ w, rel_freq !! w
           = b64_percentage (length (findall_words (lower text)))
               <$> AbsoluteFrequencyStrategy_analyze text !! w.
Proof.
  eexists. split; [apply b64_relative_frequency_table|].
  unfold AbsoluteFrequencyStrategy_analyze.
  split; [apply dom_fmap_L | intros w; apply lookup_fmap].
Qed.

(** The values of the table of "To be, or not to be", as the interpreter
    prints them: 33.33333333333333 and 16.666666666666664. *)
Example relative_frequency_to_be :
  @RelativeFrequencyStrategy_analyze ascii_tables binary64
    (py "To be, or not to be")
  = Ok {[ py "to" := S754_finite false 4691249611844266 (-47);
          py "be" := S754_finite false 4691249611844266 (-47);
          py "or" := S754_finite false 4691249611844266 (-48);
          py "not" := S754_finite false 4691249611844266 (-48) ]}.
Proof. by vm_compute. Qed.

Lemma percentage_bounds (total count : nat) :
  1 ≤ count ≤ total →
  (0 < percentage total count ∧ percentage total count ≤ Qc_of_Z 100)%Qc.
Proof.
  intros [Hcount Htotal]. unfold percentage, Qcdiv.
  assert (H0 : (0 < Qc_of_Z (Z.of_nat count))%Qc)
    by (rewrite <- Z2Qc_inj_0; apply (proj1 (Z2Qc_inj_lt _ _)); lia).
  assert (H1 : (0 < Qc_of_Z (Z.of_nat total))%Qc)
    by (rewrite <- Z2Qc_inj_0; apply (proj1 (Z2Qc_inj_lt _ _)); lia).
  assert (H2 : (0 < Qc_of_Z 100)%Qc)
    by (rewrite <- Z2Qc_inj_0; apply (proj1 (Z2Qc_inj_lt _ _)); lia).
  split.
  - apply Qcmult_pos_pos; [|done].
    apply Qcmult_pos_pos; [done | by apply Qcinv_pos].
  - rewrite <- (Qcmult_1_l (Qc_of_Z 100)) at 2.
    apply Qcmult_le_mono_nonneg_r; [by apply Qclt_le_weak|].
    rewrite <- (Qcmult_inv_r (Qc_of_Z (Z.of_nat total)))
      by (by apply not_symmetry, Qclt_not_eq).
    apply Qcmult_le_mono_nonneg_r.
    + by apply Qclt_le_weak, Qcinv_pos.
    + apply (proj1 (Z2Qc_inj_le _ _)). lia.
Qed.

(** X5: every percentage in the table of RelativeFrequencyStrategy is
    greater than 0 and at most 100: without rounding on every text, and in
    binary64, where every value is a positive finite float, on the texts
    of at most 2^1022 tokens (a list of the interpreter has fewer than
    2^63 items). *)
Theorem relative_frequency_bounds `{U : Unicode} (text w : list N) :
  (∀ (rel_freq : gmap (list N) Qc) (q : Qc),
     @RelativeFrequencyStrategy_analyze U exact_rationals text = Ok rel_freq →
     rel_freq !! w = Some q →
     (0 < q ∧ q ≤ Qc_of_Z 100)%Qc)
  ∧ (∀ (rel_freq : gmap (list N) spec_float) (q : spec_float),
       (Z.of_nat (length (findall_words (lower text))) ≤ 2 ^ 1022)%Z →
       @RelativeFrequencyStrategy_analyze U binary64 text = Ok rel_freq →
       rel_freq !! w = Some q →
       (∃ m e, q = S754_finite false m e)
       ∧ (0 < SF2Q q)%Q ∧ (SF2Q q <= 100)%Q).
Proof.
  split.
  - intros rel_freq q Hrel Hq.
    destruct (relative_frequency_lookup text) as (rel & Hrel' & Hlookup).
    rewrite Hrel in Hrel'. injection Hrel' as <-.
    rewrite Hlookup in Hq. unfold AbsoluteFrequencyStrategy_analyze in Hq.
    destruct (Counter _ !! w) as [count|] eqn:Hcount; [|done].
    injection Hq as <-. apply percentage_bounds.
    by apply (Counter_entry _ w).
  - intros rel_freq q Hrange Hrel Hq.
    rewrite b64_relative_frequency_table in Hrel. injection Hrel as <-.
    rewrite lookup_fmap in Hq.
    destruct (Counter _ !! w) as [count|] eqn:Hcount; [|done].
    injection Hq as <-.
    destruct (b64_percentage_bounds
                (length (findall_words (lower text))) count)
      as (Hfinite & _ & _ & Hpos & Hle); [by apply (Counter_entry _ w)|done|].
    done.
Qed.

Lemma relative_frequency_bounds_witness :
  @RelativeFrequencyStrategy_analyze ascii_tables exact_rationals
      (py "A rose is a rose")
    = Ok (percentage 5 <$> Counter (findall_words
                                      (lower (py "A rose is a rose"))))
  ∧ (percentage 5
       <$> Counter (findall_words (lower (py "A rose is a rose"))))
      !! py "rose" = Some (percentage 5 2)
  ∧ (0 < percentage 5 2 ∧ percentage 5 2 ≤ Qc_of_Z 100)%Qc
  ∧ (Z.of_nat (length (findall_words (lower (py "A rose is a rose"))))
     ≤ 2 ^ 1022)%Z
  ∧ @RelativeFrequencyStrategy_analyze ascii_tables binary64
      (py "A rose is a rose")
    = Ok {[ py "a" := S754_finite false 5629499534213120 (-47);
            py "rose" := S754_finite false 5629499534213120 (-47);
            py "is" := S754_finite false 5629499534213120 (-48) ]}
  ∧ ({[ py "a" := S754_finite false 5629499534213120 (-47);
        py "rose" := S754_finite false 5629499534213120 (-47);
        py "is" := S754_finite false 5629499534213120 (-48) ]}
     : gmap (list N) spec_float) !! py "rose"
    = Some (S754_finite false 5629499534213120 (-47))
  ∧ (∃ m e, S754_finite false 5629499534213120 (-47) = S754_finite false m e)
  ∧ (0 < SF2Q (S754_finite false 5629499534213120 (-47)))%Q
  ∧ (SF2Q (S754_finite false 5629499534213120 (-47)) <= 100)%Q.
Proof.
  assert (H0 : findall_words (lower (py "A rose is a rose")) ≠ [])
    by by vm_compute.
  assert (H1 : @RelativeFrequencyStrategy_analyze ascii_tables exact_rationals
                 (py "A rose is a rose")
               = Ok (percentage 5
                       <$> Counter (findall_words
                                      (lower (py "A rose is a rose")))))
    by exact (relative_frequency_table (py "A rose is a rose") H0).
  assert (H2 : (percentage 5
                  <$> Counter (findall_words
                                 (lower (py "A rose is a rose"))))
               !! py "rose" = Some (percentage 5 2))
    by (rewrite lookup_fmap, lookup_Counter; reflexivity).
  assert (H3 : (Z.of_nat (length (findall_words
                                    (lower (py "A rose is a rose"))))
                ≤ 2 ^ 1022)%Z) by by vm_compute.
  assert (H4 : @RelativeFrequencyStrategy_analyze ascii_tables binary64
                 (py "A rose is a rose")
               = Ok {[ py "a" := S754_finite false 5629499534213120 (-47);
                       py "rose" := S754_finite false 5629499534213120 (-47);
                       py "is" := S754_finite false 5629499534213120 (-48) ]})
    by by vm_compute.
  assert (H5 : ({[ py "a" := S754_finite false 5629499534213120 (-47);
                   py "rose" := S754_finite false 5629499534213120 (-47);
                   py "is" := S754_finite false 5629499534213120 (-48) ]}
                : gmap (list N) spec_float) !! py "rose"
               = Some (S754_finite false 5629499534213120 (-47)))
    by by vm_compute.
  split; [exact H1|]. split; [exact H2|].
  split; [exact (proj1 (relative_frequency_bounds (py "A rose is a rose")
                          (py "rose")) _ _ H1 H2)|].
  split; [exact H3|]. split; [exact H4|]. split; [exact H5|].
  exact (proj2 (relative_frequency_bounds (py "A rose is a rose")
                  (py "rose")) _ _ H3 H4 H5).
Defined.

(** ** The sum of the percentages *)

Lemma b64_sum_bounds (total : nat) (freq : gmap (list N) nat) :
  (Z.of_nat total ≤ 2 ^ 1022)%Z →
  (∀ k count, freq !! k = Some count → 1 ≤ count ≤ total) →
  ((1 - u64) * (1 - u64)
     * (100 * Z.of_nat (sum_values freq) # Pos.of_nat total)
     <= sum_values_Q (b64_percentage total <$> freq))%Q
  ∧ (sum_values_Q (b64_percentage total <$> freq)
     <= (1 + u64) * (1 + u64)
        * (100 * Z.of_nat (sum_values freq) # Pos.of_nat total))%Q.
Proof.
  intros Htotal Hfreq. unfold sum_values_Q, sum_values.
  rewrite map_fold_fmap, !map_fold_foldr.
  assert (Hl : Forall (λ kv, 1 ≤ kv.2 ≤ total) (map_to_list freq)).
  { apply list.Forall_forall. intros [k count] Hkv. apply (Hfreq k).
    by apply elem_of_map_to_list. }
  induction Hl as [|[k count] l Hcount _ IH].
  - cbn [foldr].
    assert (H0 : (100 * Z.of_nat 0 # Pos.of_nat total == 0)%Q) by reflexivity.
    rewrite H0, !Qmult_0_r. split; apply Qle_refl.
  - cbn [foldr uncurry compose fst snd].
    set (S := foldr _ 0 l) in *. set (V := foldr _ 0%Q l) in *.
    destruct (b64_percentage_bounds total count Hcount Htotal)
      as (_ & Hlo & Hhi & _).
    assert (Hsplit : (100 * Z.of_nat (S + count) # Pos.of_nat total
                      == (100 * Z.of_nat S # Pos.of_nat total)
                         + (100 * Z.of_nat count # Pos.of_nat total))%Q).
    { rewrite Qinv_plus_distr, Nat2Z.inj_add.
      by rewrite Z.mul_add_distr_l. }
    destruct IH as [IHlo IHhi].
    set (lo := ((1 - u64) * (1 - u64))%Q) in *.
    set (hi := ((1 + u64) * (1 + u64))%Q) in *.
    rewrite Hsplit, !Qmult_plus_distr_r.
    split; by apply Qplus_le_compat.
Qed.

(** C6: on a text with at least one token, the percentages of the table of
    RelativeFrequencyStrategy add up to 100: exactly, when the arithmetic
    is without rounding; and in binary64, where every value is a finite
    float, the exact sum of the values is within the tolerance of the two
    roundings of each value, between 100(1-u)^2 and 100(1+u)^2 for the
    unit roundoff u = 2^-53, on the texts of at most 2^1022 tokens (a
    list of the interpreter has fewer than 2^63 items). *)
Theorem relative_frequency_sum `{U : Unicode} (text : list N) :
  findall_words (lower text) ≠ [] →
  (Z.of_nat (length (findall_words (lower text))) ≤ 2 ^ 1022)%Z →
  (∃ rel_freq : gmap (list N) Qc,
     @RelativeFrequencyStrategy_analyze U exact_rationals text = Ok rel_freq
     ∧ sum_values_Qc rel_freq = Qc_of_Z 100)
  ∧ (∃ rel_freq : gmap (list N) spec_float,
       @RelativeFrequencyStrategy_analyze U binary64 text = Ok rel_freq
       ∧ map_Forall (λ _ q, ∃ m e, q = S754_finite false m e) rel_freq
       ∧ ((1 - u64) * (1 - u64) * 100 <= sum_values_Q rel_freq)%Q
       ∧ (sum_values_Q rel_freq <= (1 + u64) * (1 + u64) * 100)%Q).
Proof.
  intros Hwords Hrange. split.
  - eexists. split; [by apply relative_frequency_table|].
    rewrite sum_percentages, sum_values_Counter.
    apply percentage_all. by destruct (findall_words (lower text)).
  - eexists. split; [apply b64_relative_frequency_table|].
    set (words := findall_words (lower text)) in *.
    assert (Hentries : ∀ k count,
               Counter words !! k = Some count → 1 ≤ count ≤ length words)
      by (intros k count; apply Counter_entry).
    split.
    + intros k q. rewrite lookup_fmap.
      destruct (Counter words !! k) as [count|] eqn:Hcount; [|done].
      intros [= <-].
      by destruct (b64_percentage_bounds (length words) count
                     (Hentries k count Hcount) Hrange) as [? _].
    + pose proof (b64_sum_bounds (length words) (Counter words)
                    Hrange Hentries) as [Hlo Hhi].
      rewrite sum_values_Counter in Hlo, Hhi.
      assert (Hall : (100 * Z.of_nat (length words)
                        # Pos.of_nat (length words) == 100)%Q).
      { unfold Qeq. cbn [Qnum Qden]. rewrite Pos_of_nat_Z; [lia|].
        destruct words; [done | simpl; lia]. }
      rewrite Hall in Hlo, Hhi. done.
Qed.

Lemma relative_frequency_sum_witness :
  findall_words (lower (py "To be, or not to be")) ≠ []
  ∧ (Z.of_nat (length (findall_words (lower (py "To be, or not to be"))))
     ≤ 2 ^ 1022)%Z
  ∧ (∃ rel_freq : gmap (list N) Qc,
       @RelativeFrequencyStrategy_analyze ascii_tables exact_rationals
         (py "To be, or not to be") = Ok rel_freq
       ∧ sum_values_Qc rel_freq = Qc_of_Z 100)
  ∧ (∃ rel_freq : gmap (list N) spec_float,
       @RelativeFrequencyStrategy_analyze ascii_tables binary64
         (py "To be, or not to be") = Ok rel_freq
       ∧ map_Forall (λ _ q, ∃ m e, q = S754_finite false m e) rel_freq
       ∧ ((1 - u64) * (1 - u64) * 100 <= sum_values_Q rel_freq)%Q
       ∧ (sum_values_Q rel_freq <= (1 + u64) * (1 + u64) * 100)%Q).
Proof.
  assert (H1 : findall_words (lower (py "To be, or not to be")) ≠ [])
    by by vm_compute.
  assert (H2 : (Z.of_nat (length (findall_words
                                    (lower (py "To be, or not to be"))))
                ≤ 2 ^ 1022)%Z) by by vm_compute.
  split; [exact H1|]. split; [exact H2|].
  exact (relative_frequency_sum (py "To be, or not to be") H1 H2).
Defined.

(** In binary64 the sum is not always 100: the four values of the table
    of "To be, or not to be" add up to 100 - 2^-46, without rounding the
    sum. *)
Example relative_frequency_sum_to_be :
  ∃ rel_freq : gmap (list N) spec_float,
    @RelativeFrequencyStrategy_analyze ascii_tables binary64
      (py "To be, or not to be") = Ok rel_freq
    ∧ (sum_values_Q rel_freq == 100 - (1 # 2 ^ 46))%Q.
Proof. eexists. split; [by vm_compute|]. by vm_compute. Qed.

(** ** The sum of the percentages, every addition rounded *)

(** On sums of percentages and on sums of an integer and the inverse of
    an integer, [b64_add] gives the float that the addition of the
    specification of IEEE 754 in the Standard Library gives. *)
Example b64_add_SFadd :
  forallb (λ a, forallb (λ b,
      SF_same
        (b64_add (b64_mul (RN false a 7) hundred)
           (b64_mul (RN false b 13) hundred))
        (SFadd 53 1024 (b64_mul (RN false a 7) hundred)
           (b64_mul (RN false b 13) hundred)))
    (first_ints 30)) (first_ints 30) = true
  ∧ forallb (λ a, forallb (λ b,
      SF_same (b64_add (RN false a 1) (RN false 1 b))
        (SFadd 53 1024 (RN false a 1) (RN false 1 b)))
    (first_ints 30)) (first_ints 30) = true.
Proof. split; by vm_compute. Qed.

Section AddRounding.
Local Open Scope Z_scope.

Lemma b64_add_rounding (m1 m2 : positive) (t1 t2 : Z) :
  0 < t1 → 0 < t2 →
  Zpos m1 * 2 ^ t2 + Zpos m2 * 2 ^ t1 < 2 ^ 10 * (2 ^ t1 * 2 ^ t2) →
  2 ^ t1 * 2 ^ t2 ≤ 2 ^ 1022 * (Zpos m1 * 2 ^ t2 + Zpos m2 * 2 ^ t1) →
  ∃ (m : positive) (t : Z),
    0 < t
    ∧ b64_add (S754_finite false m1 (- t1)) (S754_finite false m2 (- t2))
      = S754_finite false m (- t)
    ∧ 2 ^ 53 * Z.abs (Zpos m * (2 ^ t1 * 2 ^ t2)
                      - (Zpos m1 * 2 ^ t2 + Zpos m2 * 2 ^ t1) * 2 ^ t)
      ≤ (Zpos m1 * 2 ^ t2 + Zpos m2 * 2 ^ t1) * 2 ^ t.
Proof.
  intros Ht1 Ht2 Hhi Hlo. unfold b64_add.
  rewrite !(Z.max_l 0 (- t1)), !(Z.max_l 0 (- t2)) by lia.
  rewrite (Z.max_r 0 (- - t1)), (Z.max_r 0 (- - t2)) by lia.
  rewrite !Z.opp_involutive, !Z.pow_0_r, !Z.mul_1_r.
  pose proof (pow2_pos t1 ltac:(lia)) as HP1.
  pose proof (pow2_pos t2 ltac:(lia)) as HP2.
  set (n := Zpos m1 * 2 ^ t2 + Zpos m2 * 2 ^ t1) in *.
  set (d := 2 ^ t1 * 2 ^ t2) in *.
  assert (Hn : 0 < n) by (unfold n; nia).
  assert (Hd : 0 < d) by (unfold d; nia).
  destruct (RN_normal (Z.to_pos n) (Z.to_pos d)) as (m & t & Ht & Hr & Herr & _).
  { unfold in_range. rewrite !Z2Pos.id by lia. split; [exact Hhi | exact Hlo]. }
  exists m, t. rewrite !Z2Pos.id in Herr by lia. split; [done|]. split; [exact Hr | exact Herr].
Qed.
End AddRounding.

Lemma normal_pos_Q (x : spec_float) :
  normal_pos x →
  ∃ (m : positive) (t : Z),
    (0 < t)%Z ∧ x = S754_finite false m (- t)
    ∧ (SF2Q x == (Zpos m # Z.to_pos (2 ^ t)))%Q.
Proof.
  intros (m & t & Ht & ->). exists m, t.
  split; [done|]. split; [done|]. by apply SF2Q_fraction.
Qed.

Lemma b64_add_Q (x y : spec_float) :
  normal_pos x → normal_pos y →
  (SF2Q x + SF2Q y < 1024)%Q →
  ((1 # 2 ^ 1022) <= SF2Q x + SF2Q y)%Q →
  normal_pos (b64_add x y)
  ∧ ((1 - u64) * (SF2Q x + SF2Q y) <= SF2Q (b64_add x y))%Q
  ∧ (SF2Q (b64_add x y) <= (1 + u64) * (SF2Q x + SF2Q y))%Q.
Proof.
  intros (m1 & t1 & Ht1 & -> & Hx)%normal_pos_Q
         (m2 & t2 & Ht2 & -> & Hy)%normal_pos_Q.
  rewrite Hx, Hy. clear Hx Hy.
  pose proof (pow2_pos t1 ltac:(lia)) as HP1.
  pose proof (pow2_pos t2 ltac:(lia)) as HP2.
  intros Hhi Hlo.
  destruct (b64_add_rounding m1 m2 t1 t2 Ht1 Ht2) as (m & t & Ht & -> & Herr).
  { revert Hhi. unfold Qlt, Qplus. cbn [Qnum Qden].
    rewrite !Pos2Z.inj_mul, !Z2Pos.id by lia. change (2 ^ 10)%Z with 1024%Z. lia. }
  { revert Hlo. unfold Qle, Qplus. cbn [Qnum Qden].
    rewrite !Pos2Z.inj_mul, !Z2Pos.id by lia.
    change (Z.pos (2 ^ 1022)) with (2 ^ 1022)%Z.
    set (A := (2 ^ 1022)%Z). lia. }
  split; [by exists m, t|].
  rewrite (SF2Q_fraction m t Ht).
  pose proof (pow2_pos t ltac:(lia)) as HP.
  assert (Hlo' : ((1 - u64) == (2 ^ 53 - 1 # 2 ^ 53))%Q) by reflexivity.
  assert (Hhi' : ((1 + u64) == (2 ^ 53 + 1 # 2 ^ 53))%Q) by reflexivity.
  rewrite Hlo', Hhi'.
  change (2 ^ 53)%Z with 9007199254740992%Z in *.
  unfold Qle, Qplus, Qmult. cbn [Qnum Qden].
  rewrite !Pos2Z.inj_mul, !Z2Pos.id by lia.
  change (Z.pos (2 ^ 53)) with 9007199254740992%Z.
  set (P := (2 ^ t)%Z) in *. set (P1 := (2 ^ t1)%Z) in *.
  set (P2 := (2 ^ t2)%Z) in *.
  split; nia.
Qed.

Lemma b64_percentage_normal (total count : nat) :
  1 ≤ count ≤ total → (Z.of_nat total ≤ 2 ^ 1022)%Z →
  normal_pos (b64_percentage total count)
  ∧ ((1 # 2 ^ 1022) <= SF2Q (b64_percentage total count))%Q.
Proof.
  intros [Hcount Htotal] Hrange.
  destruct (b64_percentage_rounding (Pos.of_nat count) (Pos.of_nat total))
    as (m & m2 & t & t2 & Ht & Ht2 & Hx & Hy & Hgrid & Hlo & Hhi).
  - rewrite !Pos_of_nat_Z by lia. lia.
  - rewrite Pos_of_nat_Z by lia. done.
  - unfold b64_percentage. rewrite Hx, Hy. split; [by exists m2, t2|].
    rewrite (SF2Q_fraction m2 t2 Ht2).
    pose proof (pow2_pos t2 ltac:(lia)) as HP2.
    unfold Qle. cbn [Qnum Qden]. rewrite Z2Pos.id by lia.
    change (Z.pos (2 ^ 1022)) with (2 ^ 1022)%Z.
    rewrite !Pos_of_nat_Z in Hlo by lia.
    change (2 ^ 53)%Z with 9007199254740992%Z in *.
    set (A := (2 ^ 1022)%Z) in *. set (P2 := (2 ^ t2)%Z) in *.
    assert (H1 : (2 * P2 ≤ 100 * Z.of_nat count * P2)%Z) by nia.
    assert (H2 : (Zpos m2 * Z.of_nat total ≤ Zpos m2 * A)%Z) by nia.
    nia.
Qed.

Lemma sum_step_lower (s v r E p b u : Q) :
  (0 <= u)%Q → (u <= 1)%Q → (0 <= b)%Q → (0 <= E)%Q → (0 <= p)%Q →
  ((1 - b) * E <= s)%Q → ((1 - b) * p <= v)%Q →
  ((1 - u) * (s + v) <= r)%Q →
  ((1 - (b + u)) * (E + p) <= r)%Q.
Proof.
  intros Hu Hu1 Hb HE Hp Hs Hv Hr.
  assert (H1 : (0 <= (1 - u) * ((s + v) - (1 - b) * (E + p)))%Q)
    by (apply Qmult_le_0_compat; lra).
  assert (H2 : (0 <= u * b * (E + p))%Q)
    by (repeat apply Qmult_le_0_compat; lra).
  lra.
Qed.

Lemma sum_step_upper (s v r E p a u : Q) :
  (0 <= u)%Q → (0 <= a)%Q → (a <= 1)%Q → (0 <= E)%Q → (0 <= p)%Q →
  (s <= (1 + a) * E)%Q → (v <= (1 + a) * p)%Q →
  (r <= (1 + u) * (s + v))%Q →
  (r <= (1 + (a + 2 * u)) * (E + p))%Q.
Proof.
  intros Hu Ha Ha1 HE Hp Hs Hv Hr.
  assert (H1 : (0 <= (1 + u) * ((1 + a) * (E + p) - (s + v)))%Q)
    by (apply Qmult_le_0_compat; lra).
  assert (H2 : (0 <= u * (1 - a) * (E + p))%Q)
    by (repeat apply Qmult_le_0_compat; lra).
  lra.
Qed.

Lemma share_add (total c1 c2 : nat) :
  (share total (c1 + c2) == share total c1 + share total c2)%Q.
Proof.
  unfold share. rewrite Qinv_plus_distr, Nat2Z.inj_add.
  by rewrite Z.mul_add_distr_l.
Qed.

Lemma share_bounds (total count : nat) :
  count ≤ total → (0 <= share total count)%Q ∧ (share total count <= 100)%Q.
Proof.
  intros Hcount. unfold share, Qle. cbn [Qnum Qden].
  destruct (decide (total = 0)) as [->|Htotal].
  - assert (count = 0) as -> by lia. done.
  - rewrite Pos_of_nat_Z by lia. lia.
Qed.

Lemma normal_pos_positive (x : spec_float) : normal_pos x → (0 < SF2Q x)%Q.
Proof. intros (m & t & Ht & _ & ->)%normal_pos_Q. done. Qed.

Lemma u64_bounds (k : nat) :
  2 ≤ k → (Z.of_nat k ≤ 2 ^ 52)%Z →
  (0 <= u64)%Q ∧ (u64 <= 1)%Q
  ∧ (2 * u64 <= inject_Z (Z.of_nat k) * u64)%Q
  ∧ (2 * inject_Z (Z.of_nat k) * u64 <= 1)%Q.
Proof.
  intros Hk Hk'. split; [done|]. split; [done|].
  unfold Qle, u64, inject_Z. cbn [Qnum Qden Qmult].
  change (Z.pos (2 ^ 53)) with (2 * 2 ^ 52)%Z.
  change (2 ^ 52)%Z with 4503599627370496%Z in *. lia.
Qed.

Lemma b64_sum_from (total : nat) (cs : list nat) (acc : spec_float)
    (k C : nat) :
  (Z.of_nat total ≤ 2 ^ 1022)%Z →
  Forall (λ c, 1 ≤ c ≤ total) cs →
  2 ≤ k → (Z.of_nat (k + length cs) ≤ 2 ^ 52)%Z →
  C + sum_list cs ≤ total →
  normal_pos acc →
  ((1 - inject_Z (Z.of_nat k) * u64) * share total C <= SF2Q acc)%Q →
  (SF2Q acc <= (1 + 2 * inject_Z (Z.of_nat k) * u64) * share total C)%Q →
  normal_pos (foldl b64_add acc (b64_percentage total <$> cs))
  ∧ ((1 - inject_Z (Z.of_nat (k + length cs)) * u64)
       * share total (C + sum_list cs)
     <= SF2Q (foldl b64_add acc (b64_percentage total <$> cs)))%Q
  ∧ (SF2Q (foldl b64_add acc (b64_percentage total <$> cs))
     <= (1 + 2 * inject_Z (Z.of_nat (k + length cs)) * u64)
        * share total (C + sum_list cs))%Q.
Proof.
  intros Hrange Hcs. revert acc k C.
  induction Hcs as [|c cs Hc _ IH]; intros acc k C Hk Hlen HC Hacc Hlo Hhi.
  - cbn [fmap list_fmap foldl length sum_list sum_list_with].
    rewrite !Nat.add_0_r. done.
  - rewrite fmap_cons.
    change (sum_list (c :: cs)) with (c + sum_list cs) in *.
    cbn [foldl length] in *.
    destruct (b64_percentage_bounds total c Hc Hrange)
      as (_ & Hvlo & Hvhi & _ & Hvle).
    destruct (b64_percentage_normal total c Hc Hrange) as [Hvn Hvfloor].
    fold (share total c) in Hvlo, Hvhi.
    set (v := b64_percentage total c) in *.
    destruct (u64_bounds k Hk ltac:(lia)) as (Hu0 & Hu1 & Hk2 & Hk1).
    destruct (share_bounds total C ltac:(lia)) as [HE0 HE1].
    destruct (share_bounds total c ltac:(lia)) as [Hp0 Hp1].
    pose proof (normal_pos_positive acc Hacc) as Hacc0.
    set (kq := inject_Z (Z.of_nat k)) in *.
    assert (Huu : (0 <= u64 * u64)%Q) by (by apply Qmult_le_0_compat).
    assert (Huu1 : (u64 * u64 <= u64)%Q) by done.
    assert (Hku : (0 <= kq * u64)%Q) by lra.
    assert (Hvlo' : ((1 - kq * u64) * share total c <= SF2Q v)%Q).
    { assert (0 <= ((1 - u64) * (1 - u64) - (1 - kq * u64))
                   * share total c)%Q
        by (apply Qmult_le_0_compat; lra).
      lra. }
    assert (Hvhi' : (SF2Q v <= (1 + 2 * kq * u64) * share total c)%Q).
    { assert (0 <= ((1 + 2 * kq * u64) - (1 + u64) * (1 + u64))
                   * share total c)%Q
        by (apply Qmult_le_0_compat; lra).
      lra. }
    destruct (b64_add_Q acc v Hacc Hvn) as (Hn' & Hlo' & Hhi').
    { assert (0 <= (1 - 2 * kq * u64) * share total C)%Q
        by (apply Qmult_le_0_compat; lra).
      lra. }
    { lra. }
    assert (HSk : (inject_Z (Z.of_nat (S k)) == kq + 1)%Q).
    { rewrite Nat2Z.inj_succ, <- Z.add_1_r, inject_Z_plus. done. }
    specialize (IH (b64_add acc v) (S k) (C + c)).
    replace (S k + length cs) with (k + S (length cs)) in IH by lia.
    replace (C + c + sum_list cs) with (C + (c + sum_list cs)) in IH by lia.
    apply IH; [lia | done | lia | done | |].
    + rewrite HSk, share_add.
      pose proof (sum_step_lower (SF2Q acc) (SF2Q v) (SF2Q (b64_add acc v))
                    (share total C) (share total c) (kq * u64) u64
                    Hu0 Hu1 Hku HE0 Hp0 Hlo Hvlo' Hlo').
      lra.
    + rewrite HSk, share_add.
      assert (Ha0 : (0 <= 2 * kq * u64)%Q) by lra.
      pose proof (sum_step_upper (SF2Q acc) (SF2Q v) (SF2Q (b64_add acc v))
                    (share total C) (share total c) (2 * kq * u64) u64
                    Hu0 Ha0 Hk1 HE0 Hp0 Hhi Hvhi' Hhi').
      lra.
Qed.

Lemma Permutation_fmap_inv {A B : Type} (f : A → B) (l : list B)
    (k : list A) :
  l ≡ₚ f <$> k → ∃ k', l = f <$> k' ∧ k' ≡ₚ k.
Proof.
  intros Hl. destruct (Permutation_map_inv f k Hl) as (k' & -> & Hk').
  exists k'. split; [done | by symmetry].
Qed.

Lemma sum_values_sum_list (freq : gmap (list N) nat) :
  sum_values freq = sum_list (map_to_list freq).*2.
Proof.
  unfold sum_values. rewrite map_fold_foldr.
  induction (map_to_list freq) as [|[k count] l IH]; [done|].
  rewrite fmap_cons. cbn [foldr uncurry fst snd]. rewrite IH.
  change (sum_list (count :: l.*2)) with (count + sum_list l.*2). lia.
Qed.

Lemma length_le_sum_list (total : nat) (cs : list nat) :
  Forall (λ c, 1 ≤ c ≤ total) cs → length cs ≤ sum_list cs.
Proof.
  induction 1 as [|c cs Hc _ IH]; [done|].
  change (sum_list (c :: cs)) with (c + sum_list cs). simpl. lia.
Qed.

Lemma b64_sum_percentages (total : nat) (cs : list nat) :
  (Z.of_nat total < 2 ^ 52)%Z →
  Forall (λ c, 1 ≤ c ≤ total) cs →
  sum_list cs = total → cs ≠ [] →
  normal_pos (b64_sum (b64_percentage total <$> cs))
  ∧ ((1 - inject_Z (Z.of_nat (S (length cs))) * u64) * 100
     <= SF2Q (b64_sum (b64_percentage total <$> cs)))%Q
  ∧ (SF2Q (b64_sum (b64_percentage total <$> cs))
     <= (1 + 2 * inject_Z (Z.of_nat (S (length cs))) * u64) * 100)%Q.
Proof.
  intros Htotal Hcs Hsum Hne.
  pose proof (length_le_sum_list total cs Hcs) as Hlen.
  destruct cs as [|c cs]; [done|]. clear Hne.
  change (sum_list (c :: cs)) with (c + sum_list cs) in *.
  apply list.Forall_cons in Hcs as [Hc Hcs]. cbn [length] in *.
  assert (Hrange : (Z.of_nat total ≤ 2 ^ 1022)%Z).
  { transitivity (2 ^ 52)%Z; [lia | done]. }
  destruct (b64_percentage_bounds total c Hc Hrange)
    as (_ & Hvlo & Hvhi & _ & _).
  destruct (b64_percentage_normal total c Hc Hrange) as [Hvn _].
  fold (share total c) in Hvlo, Hvhi.
  destruct (share_bounds total c ltac:(lia)) as [Hp0 _].
  unfold b64_sum. rewrite fmap_cons. cbn [foldl].
  assert (Hfirst : b64_add (S754_zero false) (b64_percentage total c)
                   = b64_percentage total c)
    by (by destruct Hvn as (m & t & _ & ->)).
  rewrite Hfirst.
  assert (Hall : (share total (c + sum_list cs) == 100)%Q).
  { rewrite Hsum. unfold share, Qeq. cbn [Qnum Qden].
    rewrite Pos_of_nat_Z; lia. }
  assert (Hu0 : (0 <= u64)%Q) by done.
  assert (Huu : (0 <= u64 * u64)%Q) by done.
  assert (Huu1 : (u64 * u64 <= u64)%Q) by done.
  destruct (b64_sum_from total cs (b64_percentage total c) 2 c Hrange Hcs)
    as (Hn & Hlo & Hhi); [done | lia | lia | done | | |].
  - change (inject_Z (Z.of_nat 2)) with 2%Q.
    assert (0 <= ((1 - u64) * (1 - u64) - (1 - 2 * u64)) * share total c)%Q
      by (apply Qmult_le_0_compat; lra).
    lra.
  - change (inject_Z (Z.of_nat 2)) with 2%Q.
    assert (0 <= ((1 + 2 * 2 * u64) - (1 + u64) * (1 + u64))
                 * share total c)%Q
      by (apply Qmult_le_0_compat; lra).
    lra.
  - rewrite Hall in Hlo, Hhi.
    change (2 + length cs) with (S (S (length cs))) in *. done.
Qed.

(** X17: on a text with at least one token and fewer than 2^52 tokens,
    adding up the values of the table of RelativeFrequencyStrategy from
    left to right in binary64, in whatever order and every addition
    rounded, gives a positive finite float within 100(n+1)u below and
    200(n+1)u above 100, for the n entries of the table and the unit
    roundoff u = 2^-53. *)
Theorem relative_frequency_float_sum `{U : Unicode} (text : list N) :
  findall_words (lower text) ≠ [] →
  (Z.of_nat (length (findall_words (lower text))) < 2 ^ 52)%Z →
  ∃ rel_freq : gmap (list N) spec_float,
    @RelativeFrequencyStrategy_analyze U binary64 text = Ok rel_freq
    ∧ ∀ values : list spec_float,
        values ≡ₚ (map_to_list rel_freq).*2 →
        (∃ m e, b64_sum values = S754_finite false m e)
        ∧ ((1 - inject_Z (Z.of_nat (S (length values))) * u64) * 100
           <= SF2Q (b64_sum values))%Q
        ∧ (SF2Q (b64_sum values)
           <= (1 + 2 * inject_Z (Z.of_nat (S (length values))) * u64)
              * 100)%Q.
Proof.
  intros Hwords Hrange. eexists.
  split; [apply b64_relative_frequency_table|].
  set (words := findall_words (lower text)) in *.
  intros values Hvalues.
  rewrite map_to_list_fmap, <- list_fmap_compose in Hvalues.
  change (snd ∘ prod_map id (b64_percentage (length words)))
    with (b64_percentage (length words) ∘ (snd : list N * nat → nat))
    in Hvalues.
  rewrite list_fmap_compose in Hvalues.
  apply Permutation_fmap_inv in Hvalues as (cs & -> & Hcs).
  destruct (b64_sum_percentages (length words) cs Hrange)
    as ((m & t & _ & Hsum) & Hlo & Hhi).
  - rewrite Hcs. apply list.Forall_forall. intros count Hcount.
    apply list_elem_of_fmap in Hcount as ([k c] & -> & Hkc).
    apply elem_of_map_to_list in Hkc. by apply (Counter_entry _ k).
  - rewrite Hcs, <- sum_values_sum_list. apply sum_values_Counter.
  - intros ->. apply Permutation_nil_l in Hcs. symmetry in Hcs.
    apply fmap_nil_inv, map_to_list_empty_iff in Hcs.
    pose proof (sum_values_Counter words) as Hsum.
    rewrite Hcs in Hsum. unfold sum_values in Hsum.
    rewrite map_fold_empty in Hsum. by destruct words.
  - rewrite length_fmap. split; [by eexists _, _|]. done.
Qed.

Lemma relative_frequency_float_sum_witness :
  findall_words (lower (py "To be, or not to be")) ≠ []
  ∧ (Z.of_nat (length (findall_words (lower (py "To be, or not to be"))))
     < 2 ^ 52)%Z
  ∧ ∃ rel_freq : gmap (list N) spec_float,
      @RelativeFrequencyStrategy_analyze ascii_tables binary64
        (py "To be, or not to be") = Ok rel_freq
      ∧ ∀ values : list spec_float,
          values ≡ₚ (map_to_list rel_freq).*2 →
          (∃ m e, b64_sum values = S754_finite false m e)
          ∧ ((1 - inject_Z (Z.of_nat (S (length values))) * u64) * 100
             <= SF2Q (b64_sum values))%Q
          ∧ (SF2Q (b64_sum values)
             <= (1 + 2 * inject_Z (Z.of_nat (S (length values))) * u64)
                * 100)%Q.
Proof.
  assert (H1 : findall_words (lower (py "To be, or not to be")) ≠ [])
    by by vm_compute.
  assert (H2 : (Z.of_nat (length (findall_words
                                    (lower (py "To be, or not to be"))))
                < 2 ^ 52)%Z) by by vm_compute.
  split; [exact H1|]. split; [exact H2|].
  exact (relative_frequency_float_sum (py "To be, or not to be") H1 H2).
Defined.

(** The four values of the table of "To be, or not to be", added up in
    the order of the first occurrences of the tokens, give
    99.99999999999997, which is 100 - 2^-45. *)
Example relative_frequency_float_sum_to_be :
  b64_sum [S754_finite false 4691249611844266 (-47);
           S754_finite false 4691249611844266 (-47);
           S754_finite false 4691249611844266 (-48);
           S754_finite false 4691249611844266 (-48)]
  = S754_finite false 7036874417766398 (-46)
  ∧ (SF2Q (S754_finite false 7036874417766398 (-46))
     == 100 - (1 # 2 ^ 45))%Q.
Proof. split; by vm_compute. Qed.

(** ** The tokens of a text *)

Lemma findall_from_nonword `{U : Unicode} (cur a b : list N) (c : N) :
  isword c = false →
  findall_from cur (a ++ c :: b) = findall_from cur a ++ findall_from [] b.
Proof.
  intros Hc. revert cur. induction a as [|x a IH]; intros cur; simpl.
  - by rewrite Hc.
  - destruct (isword x); [apply IH|].
    by rewrite IH, (assoc_L (++)).
Qed.

Lemma findall_from_word `{U : Unicode} (cur s : list N) :
  Forall (λ c, isword c = true) s →
  findall_from cur s = flush (cur ++ s).
Proof.
  intros Hs. revert cur. induction Hs as [|c s Hc _ IH]; intros cur; simpl.
  - by rewrite app_nil_r.
  - by rewrite Hc, IH, <- (assoc_L (++)).
Qed.

(** X6: the two laws of the tokenizer [re.findall(r'\b\w+\b', s)].  A
    character that is not a word character separates the tokens before it
    from the tokens after it, and a string of word characters is one
    token, or none when it is empty. *)
Theorem findall_words_laws `{U : Unicode} (a b s : list N) (c : N) :
  isword c = false →
  Forall (λ c, isword c = true) s →
  findall_words (a ++ c :: b) = findall_words a ++ findall_words b
  ∧ findall_words s = if decide (s = []) then [] else [s].
Proof.
  intros Hc Hs. split.
  - by apply findall_from_nonword.
  - unfold findall_words. rewrite findall_from_word by done. simpl.
    by destruct s.
Qed.

Lemma findall_words_laws_witness :
  isword 45%N = false
  ∧ Forall (λ c, isword c = true) (py "snake_case2")
  ∧ findall_words (py "well" ++ 45%N :: py "known fact")
    = findall_words (py "well") ++ findall_words (py "known fact")
  ∧ findall_words (py "snake_case2")
    = if decide (py "snake_case2" = []) then [] else [py "snake_case2"].
Proof.
  assert (H1 : isword 45%N = false) by reflexivity.
  assert (H2 : Forall (λ c, isword c = true) (py "snake_case2"))
    by (repeat constructor).
  split; [exact H1|]. split; [exact H2|].
  exact (findall_words_laws (py "well") (py "known fact") (py "snake_case2")
           45%N H1 H2).
Defined.

Lemma concat_flush `{U : Unicode} (cur : list N) : concat (flush cur) = cur.
Proof. destruct cur; simpl; [done | by rewrite app_nil_r]. Qed.

Lemma concat_findall_from `{U : Unicode} (cur s : list N) :
  concat (findall_from cur s) = cur ++ filter (λ c, isword c = true) s.
Proof.
  revert cur. induction s as [|c s IH]; intros cur; simpl.
  - by rewrite concat_flush, filter_nil, app_nil_r.
  - rewrite filter_cons. destruct (isword c) eqn:Hc.
    + rewrite IH, decide_True by done. by rewrite <- (assoc_L (++)).
    + rewrite concat_app, concat_flush, IH, decide_False by congruence.
      done.
Qed.

(** X7: the tokenizer keeps every word character of its input, in order,
    and nothing else: the tokens put end to end are the word characters
    of the string; and no token is empty. *)
Theorem findall_words_content `{U : Unicode} (s : list N) :
  concat (findall_words s) = filter (λ c, isword c = true) s
  ∧ Forall (λ w, w ≠ [] ∧ Forall (λ c, isword c = true) w) (findall_words s).
Proof.
  split; [apply (concat_findall_from [] s) | apply findall_from_tokens].
  constructor.
Qed.

(** ** More on SentenceCountStrategy *)

Lemma length_re_split_from (cur s : list N) :
  length (re_split_from cur s) = S (length (List.filter is_delim s)).
Proof.
  revert cur. induction s as [|c s IH]; intros cur; simpl; [done|].
  destruct (is_delim c); simpl; by rewrite IH.
Qed.

Lemma sentence_count_content (text : list N) :
  SentenceCountStrategy_analyze text
  = length (List.filter has_content (re_split text)).
Proof.
  unfold SentenceCountStrategy_analyze. f_equal.
  apply List.filter_ext. intros piece. apply truthy_strip.
Qed.

Lemma filter_length_zero {A : Type} (f : A → bool) (l : list A) :
  length (List.filter f l) = 0 ↔ Forall (λ x, f x = false) l.
Proof.
  induction l as [|x l IH]; simpl.
  - split; [constructor | done].
  - rewrite list.Forall_cons. destruct (f x); simpl.
    + split; [lia | by intros []].
    + rewrite IH. split; [done | by intros []].
Qed.

Lemma pieces_blank (cur s : list N) :
  Forall (λ piece, has_content piece = false) (re_split_from cur s)
  ↔ has_content cur = false
    ∧ Forall (λ c, isspace c = true ∨ is_delim c = true) s.
Proof.
  revert cur. induction s as [|c s IH]; intros cur; simpl.
  - rewrite list.Forall_cons. split.
    + intros [? _]. split; [done | constructor].
    + intros [? _]. split; [done | constructor].
  - rewrite (list.Forall_cons _ c s). destruct (is_delim c) eqn:Hc.
    + rewrite list.Forall_cons, IH. simpl.
      split; [intros (? & _ & ?) | intros (? & _ & ?)]; repeat split; auto.
    + rewrite IH, has_content_app. simpl.
      rewrite orb_false_r, orb_false_iff, negb_false_iff.
      split.
      * intros [[? ?] ?]. repeat split; auto.
      * intros (? & [?|?] & ?); [by repeat split | done].
Qed.

(** X8: SentenceCountStrategy returns at most one more than the number of
    [.], [!] and [?] in the text, and it returns 0 exactly when the text has
    nothing but white space and these three characters. *)
Theorem sentence_count_bounds (text : list N) :
  SentenceCountStrategy_analyze text ≤ S (length (List.filter is_delim text))
  ∧ (SentenceCountStrategy_analyze text = 0
     ↔ Forall (λ c, isspace c = true ∨ is_delim c = true) text).
Proof.
  split.
  - unfold SentenceCountStrategy_analyze, re_split.
    rewrite <- (length_re_split_from [] text). apply List.filter_length_le.
  - rewrite sentence_count_content, filter_length_zero.
    unfold re_split. rewrite pieces_blank. simpl. split; [by intros [] | done].
Qed.

(** X9: the count of SentenceCountStrategy is additive across a [.], [!]
    or [?]: the text before the character and the text after it are
    counted apart. *)
Theorem sentence_count_additive (a b : list N) (d : N) :
  is_delim d = true →
  SentenceCountStrategy_analyze (a ++ d :: b)
  = SentenceCountStrategy_analyze a + SentenceCountStrategy_analyze b.
Proof. apply sentence_count_delim. Qed.

Lemma sentence_count_additive_witness :
  is_delim 63%N = true
  ∧ SentenceCountStrategy_analyze (py "Really" ++ 63%N :: py " Yes. No.")
    = SentenceCountStrategy_analyze (py "Really")
      + SentenceCountStrategy_analyze (py " Yes. No.").
Proof.
  split; [reflexivity|].
  apply (sentence_count_additive (py "Really") (py " Yes. No.") 63%N).
  reflexivity.
Defined.

(** ** When InflectionHighlightStrategy raises *)

Section InflectionErrors.
Context {U : Unicode} {M : MorphAnalyzer}.

Implicit Types (inflections : gmap (list N) (list (list N))).
Implicit Types (w word lemma : list N) (words seeds : list (list N)).

Lemma parsed_dec w : {parsed w} + {¬ parsed w}.
Proof.
  unfold parsed. destruct (parse w); [right | left]; [by intros [] | done].
Qed.

Lemma lemma_of_unparsed w : ¬ parsed w → lemma_of w = Raise IndexError.
Proof.
  unfold parsed, lemma_of. destruct (parse w); [done|].
  intros []. done.
Qed.

Lemma scan_words_unparsed lemma words inflections group :
  inflections !! lemma = Some group →
  ¬ Forall parsed words →
  for_each (scan_word lemma) inflections words = Raise IndexError.
Proof.
  revert inflections group.
  induction words as [|w words IH]; intros inflections group Hgroup Hwords.
  - destruct Hwords. constructor.
  - rewrite for_each_cons. destruct (parsed_dec w) as [Hw|Hw].
    + rewrite (scan_word_spec _ _ _ group) by done. cbn [mbind result_bind].
      apply (IH _ (group ++ suffixes_of lemma [w]));
        [apply lookup_insert_eq|].
      intros Hrest. apply Hwords. by constructor.
    + unfold scan_word. by rewrite lemma_of_unparsed.
Qed.

Lemma scan_seed_unparsed words inflections word :
  ¬ (parsed word ∧ Forall parsed words) →
  scan_seed words inflections word = Raise IndexError.
Proof.
  intros Hnot. unfold scan_seed.
  destruct (parsed_dec word) as [Hword|Hword].
  - rewrite lemma_of_parsed by done. cbn [mbind result_bind].
    apply (scan_words_unparsed _ _ _ []); [apply lookup_insert_eq|].
    intros Hwords. by apply Hnot.
  - by rewrite lemma_of_unparsed.
Qed.

Lemma scan_seeds_unparsed words seeds inflections :
  ¬ (Forall parsed seeds ∧ (seeds = [] ∨ Forall parsed words)) →
  for_each (scan_seed words) inflections seeds = Raise IndexError.
Proof.
  revert inflections.
  induction seeds as [|word seeds IH]; intros inflections Hnot.
  - destruct Hnot. split; [constructor | by left].
  - rewrite for_each_cons.
    destruct (parsed_dec word) as [Hword|Hword];
      [|rewrite scan_seed_unparsed; [done | by intros []]].
    destruct (Forall_dec parsed parsed_dec words) as [Hwords|Hwords];
      [|rewrite scan_seed_unparsed; [done | by intros []]].
    rewrite scan_seed_spec by done. cbn [mbind result_bind].
    apply IH. intros [Hseeds _]. apply Hnot.
    split; [by constructor | by right].
Qed.

Lemma analyze_inflections_outcome text seeds :
  (∃ inflections,
     InflectionHighlightStrategy_analyze text seeds = Ok inflections)
  ∨ InflectionHighlightStrategy_analyze text seeds = Raise IndexError.
Proof.
  unfold InflectionHighlightStrategy_analyze.
  destruct (Forall_dec parsed parsed_dec seeds) as [Hseeds|Hseeds].
  - destruct seeds as [|word seeds]; [left; by eexists|].
    destruct (Forall_dec parsed parsed_dec (findall_words (lower text)))
      as [Hwords|Hwords].
    + left. eexists. by apply scan_seeds_spec.
    + right. apply scan_seeds_unparsed. intros [_ [?|?]]; done.
  - right. apply scan_seeds_unparsed. by intros [].
Qed.
End InflectionErrors.

(** X10: InflectionHighlightStrategy returns a dictionary when the
    analyzer has a parse for every seed word and, unless there is no seed
    word, for every token of the text; in every other case it raises
    IndexError, and it raises nothing else. *)
Theorem inflection_groups_outcome `{U : Unicode} `{M : MorphAnalyzer}
    (text : list N) (seeds : list (list N)) :
  (Forall parsed seeds
   ∧ (seeds = [] ∨ Forall parsed (findall_words (lower text)))
   ∧ ∃ inflections,
       InflectionHighlightStrategy_analyze text seeds = Ok inflections)
  ∨ (¬ (Forall parsed seeds
        ∧ (seeds = [] ∨ Forall parsed (findall_words (lower text))))
     ∧ InflectionHighlightStrategy_analyze text seeds = Raise IndexError).
Proof.
  destruct (Forall_dec parsed parsed_dec seeds) as [Hseeds|Hseeds].
  - destruct (decide (seeds = [])) as [->|Hne].
    { left. split; [done|]. split; [by left|]. by eexists. }
    destruct (Forall_dec parsed parsed_dec (findall_words (lower text)))
      as [Hwords|Hwords].
    + left. split; [done|]. split; [by right|].
      eexists. by apply analyze_inflections_spec.
    + right. assert (Hnot : ¬ (Forall parsed seeds
                    ∧ (seeds = [] ∨ Forall parsed (findall_words (lower text)))))
        by (intros [_ [?|?]]; done).
      split; [done|]. by apply scan_seeds_unparsed.
  - right. assert (Hnot : ¬ (Forall parsed seeds
                    ∧ (seeds = [] ∨ Forall parsed (findall_words (lower text)))))
      by (by intros []).
    split; [done|]. by apply scan_seeds_unparsed.
Qed.

(** X11: the result of InflectionHighlightStrategy depends on the seed
    words through the set of their lemmas only: neither their order nor
    their repetition matters. *)
Theorem inflection_groups_seed_set `{U : Unicode} `{M : MorphAnalyzer}
    (text : list N) (seeds seeds' : list (list N)) :
  Forall parsed seeds → Forall parsed seeds' →
  Forall parsed (findall_words (lower text)) →
  (∀ lemma, lemma ∈ the_lemma <$> seeds ↔ lemma ∈ the_lemma <$> seeds') →
  InflectionHighlightStrategy_analyze text seeds
  = InflectionHighlightStrategy_analyze text seeds'.
Proof.
  intros Hseeds Hseeds' Hwords Hsame.
  rewrite !analyze_inflections_spec by done. f_equal.
  apply map_eq. intros lemma. rewrite !lookup_scan_seeds.
  destruct (decide (lemma ∈ the_lemma <$> seeds)) as [Hin|Hnin].
  - by rewrite decide_True by by apply Hsame.
  - rewrite decide_False; [done|]. by rewrite <- Hsame.
Qed.

Lemma inflection_groups_seed_set_witness :
  Forall parsed [py "run"; py "mice"]
  ∧ Forall parsed [py "mouse"; py "running"; py "ran"; py "mouse"]
  ∧ Forall parsed (findall_words (lower sample_text))
  ∧ (∀ lemma,
       lemma ∈ the_lemma <$> [py "run"; py "mice"]
       ↔ lemma ∈ the_lemma
                  <$> [py "mouse"; py "running"; py "ran"; py "mouse"])
  ∧ InflectionHighlightStrategy_analyze sample_text [py "run"; py "mice"]
    = InflectionHighlightStrategy_analyze sample_text
        [py "mouse"; py "running"; py "ran"; py "mouse"].
Proof.
  assert (H1 : Forall parsed [py "run"; py "mice"])
    by (repeat constructor; by vm_compute).
  assert (H2 : Forall parsed
                 [py "mouse"; py "running"; py "ran"; py "mouse"])
    by (repeat constructor; by vm_compute).
  assert (H3 : Forall parsed (findall_words (lower sample_text)))
    by (vm_compute; repeat constructor; by vm_compute).
  assert (H4 : ∀ lemma,
             lemma ∈ the_lemma <$> [py "run"; py "mice"]
             ↔ lemma ∈ the_lemma
                        <$> [py "mouse"; py "running"; py "ran"; py "mouse"]).
  { intros lemma.
    change (the_lemma <$> [py "run"; py "mice"])
      with [py "run"; py "mouse"].
    change (the_lemma <$> [py "mouse"; py "running"; py "ran"; py "mouse"])
      with [py "mouse"; py "run"; py "run"; py "mouse"].
    rewrite !elem_of_cons, !elem_of_nil. tauto. }
  split; [exact H1|]. split; [exact H2|]. split; [exact H3|].
  split; [exact H4|].
  exact (inflection_groups_seed_set sample_text _ _ H1 H2 H3 H4).
Defined.

(** X12: in the group of a seed word's lemma there is one suffix for each
    token with that lemma, in the same order.  The suffix has the length
    of the token minus the length of the lemma, or 0 when the lemma is the
    longer; and when the token starts with the lemma, the lemma followed by
    the suffix is the token. *)
Theorem inflection_group_tokens `{U : Unicode} `{M : MorphAnalyzer}
    (text seed : list N) (seeds : list (list N)) :
  Forall parsed seeds →
  Forall parsed (findall_words (lower text)) →
  seed ∈ seeds →
  ∃ inflections group,
    InflectionHighlightStrategy_analyze text seeds = Ok inflections
    ∧ inflections !! the_lemma seed = Some group
    ∧ Forall2
        (λ suffix w,
           length suffix = length w - length (the_lemma seed)
           ∧ (∀ rest, w = the_lemma seed ++ rest →
                      the_lemma seed ++ suffix = w))
        group
        (filter (λ w, the_lemma w = the_lemma seed)
           (findall_words (lower text))).
Proof.
  intros Hseeds Hwords Hseed. eexists _, _.
  split; [by apply analyze_inflections_spec|].
  split.
  - rewrite lookup_scan_seeds, decide_True; [done|].
    by apply list_elem_of_fmap_2.
  - unfold suffixes_of. apply Forall2_fmap_l, Forall_Forall2_diag.
    apply list.Forall_forall. intros w _. unfold slice_from.
    split; [apply length_drop|].
    intros rest ->. by rewrite drop_app_length.
Qed.

Lemma inflection_group_tokens_witness :
  Forall parsed sample_seeds
  ∧ Forall parsed (findall_words (lower sample_text))
  ∧ py "run" ∈ sample_seeds
  ∧ ∃ inflections group,
      InflectionHighlightStrategy_analyze sample_text sample_seeds
      = Ok inflections
      ∧ inflections !! the_lemma (py "run") = Some group
      ∧ Forall2
          (λ suffix w,
             length suffix = length w - length (the_lemma (py "run"))
             ∧ (∀ rest, w = the_lemma (py "run") ++ rest →
                        the_lemma (py "run") ++ suffix = w))
          group
          (filter (λ w, the_lemma w = the_lemma (py "run"))
             (findall_words (lower sample_text))).
Proof.
  assert (H1 : Forall parsed sample_seeds)
    by (repeat constructor; by vm_compute).
  assert (H2 : Forall parsed (findall_words (lower sample_text)))
    by (vm_compute; repeat constructor; by vm_compute).
  assert (H3 : py "run" ∈ sample_seeds) by left.
  split; [exact H1|]. split; [exact H2|]. split; [exact H3|].
  exact (inflection_group_tokens sample_text (py "run") sample_seeds
           H1 H2 H3).
Defined.

(** ** The exceptions of TextAnalyzer.analyze *)

(** A loop raises what its body raises. *)
Lemma for_each_raise {A B : Type} (body : B → A → result B) b l e :
  for_each body b l = Raise e → ∃ b' a, a ∈ l ∧ body b' a = Raise e.
Proof.
  revert b. induction l as [|a l IH]; intros b; [done|].
  rewrite for_each_cons. destruct (body b a) as [b'|e'] eqn:Hbody.
  - intros (b'' & a' & Ha' & Hraise)%IH. exists b'', a'.
    split; [by right | done].
  - intros [= ->]. exists b, a. split; [by left | done].
Qed.

(** Whatever the arithmetic, RelativeFrequencyStrategy raises nothing but
    what the division and the conversion of 100 raise. *)
Lemma relative_frequency_raise `{U : Unicode} `{F : FloatArith}
    (text : list N) (e : exn) :
  RelativeFrequencyStrategy_analyze text = Raise e →
  e = ZeroDivisionError ∨ e = OverflowError.
Proof.
  unfold RelativeFrequencyStrategy_analyze, dict_comprehension.
  intros (acc & [k count] & _ & Hraise)%for_each_raise. revert Hraise.
  cbn [fst snd]. unfold truediv, mul_int.
  destruct (length _); cbn [mbind result_bind]; [intros [= <-]; by left|].
  destruct (int_truediv _ _); cbn [mbind result_bind];
    [|intros [= <-]; by right].
  destruct (float_of_int _); cbn [mbind result_bind];
    [done | intros [= <-]; by right].
Qed.

Lemma strategy_analyze_arity `{U : Unicode} `{M : MorphAnalyzer}
    `{F : FloatArith}
    (strategy : Strategy) (text : list N) (args : list (list (list N))) :
  length args = extra_parameters strategy →
  Strategy_analyze strategy text args ≠ Raise TypeError.
Proof.
  intros Harity.
  destruct strategy; simpl in Harity;
    destruct args as [|arg [|? ?]]; try discriminate Harity; try done.
  - unfold Strategy_analyze.
    destruct (RelativeFrequencyStrategy_analyze text) as [rel|e] eqn:Hrel;
      [done|].
    apply relative_frequency_raise in Hrel as [-> | ->]; done.
  - unfold Strategy_analyze.
    destruct (analyze_inflections_outcome text arg) as [[m ->] | ->]; done.
Qed.

Lemma strategy_analyze_wrong_arity `{U : Unicode} `{M : MorphAnalyzer}
    `{F : FloatArith}
    (strategy : Strategy) (text : list N) (args : list (list (list N))) :
  length args ≠ extra_parameters strategy →
  Strategy_analyze strategy text args = Raise TypeError.
Proof.
  intros Harity.
  destruct strategy; simpl in Harity;
    destruct args as [|arg [|? ?]]; done.
Qed.

(** X13: TextAnalyzer.analyze raises TypeError exactly when the number of
    arguments after the text is not the number that the [analyze] method
    of the current strategy takes: one for InflectionHighlightStrategy,
    none for the others. *)
Theorem text_analyzer_type_error `{U : Unicode} `{M : MorphAnalyzer}
    `{F : FloatArith} (self : TextAnalyzer) (text : list N) (args : list (list (list N))) :
  TextAnalyzer_analyze self text args = Raise TypeError
  ↔ length args ≠ extra_parameters (_strategy self).
Proof.
  unfold TextAnalyzer_analyze. split.
  - intros Hraise Harity.
    exact (strategy_analyze_arity _ text args Harity Hraise).
  - apply strategy_analyze_wrong_arity.
Qed.

(** ** Logger *)

Lemma logger_log_entries (self : Logger) (entries : list (list N * list N))
    (w : World) (content : list N) :
  files w !! log_file self = Some content →
  _instance (log_all self entries w) = _instance w
  ∧ files (log_all self entries w) !! log_file self
    = Some (content ++ concat (log_line <$> entries))
  ∧ ∀ path, path ≠ log_file self →
            files (log_all self entries w) !! path = files w !! path.
Proof.
  unfold log_all. revert w content.
  induction entries as [|entry entries IH]; intros w content Hcontent; simpl.
  - rewrite app_nil_r. done.
  - destruct (IH (Logger_log self entry.1 entry.2 w)
                (content ++ log_line entry)) as (Hinst & Hlog & Hother).
    { simpl. unfold append_file. rewrite lookup_insert_eq, Hcontent. done. }
    split; [by rewrite Hinst|]. split.
    + by rewrite Hlog, <- (assoc_L (++)).
    + intros path Hpath. rewrite Hother by done. simpl.
      unfold append_file. by rewrite lookup_insert_ne.
Qed.

(** X16: the first [Logger()] replaces the content of the log file by the
    line [Log File Initialized]; every [log] then adds one line, the
    timestamp, [ - ] and the message, after what the file holds.  A later
    [Logger()] returns the same object and writes nothing, so the lines
    logged so far are kept.  No other file is written. *)
Theorem logger_log_file (log_txt log_txt' : list N) (w : World)
    (entries : list (list N * list N)) :
  _instance w = None →
  Logger_new log_txt'
    (log_all (Logger_new log_txt w).1 entries (Logger_new log_txt w).2)
  = ((Logger_new log_txt w).1,
     log_all (Logger_new log_txt w).1 entries (Logger_new log_txt w).2)
  ∧ files (log_all (Logger_new log_txt w).1 entries (Logger_new log_txt w).2)
      !! log_txt
    = Some (py "Log File Initialized" ++ [10%N]
            ++ concat (log_line <$> entries))
  ∧ ∀ path, path ≠ log_txt →
      files (log_all (Logger_new log_txt w).1 entries (Logger_new log_txt w).2)
        !! path
      = files w !! path.
Proof.
  intros Hnone.
  assert (Hnew : Logger_new log_txt w
                 = ({| log_file := log_txt |},
                    {| _instance := Some {| log_file := log_txt |};
                       files := write_file log_txt
                                  (py "Log File Initialized" ++ [10%N])
                                  (files w) |}))
    by (unfold Logger_new; by rewrite Hnone).
  rewrite Hnew. cbn [fst snd].
  destruct (logger_log_entries {| log_file := log_txt |} entries
              {| _instance := Some {| log_file := log_txt |};
                 files := write_file log_txt
                            (py "Log File Initialized" ++ [10%N])
                            (files w) |}
              (py "Log File Initialized" ++ [10%N]))
    as (Hinst & Hlog & Hother).
  { cbn [files log_file]. unfold write_file. apply lookup_insert_eq. }
  cbn [_instance files log_file] in Hinst, Hlog, Hother.
  split; [|split].
  - unfold Logger_new at 1. by rewrite Hinst.
  - rewrite Hlog. by rewrite <- (assoc_L (++)).
  - intros path Hpath. rewrite Hother by done.
    unfold write_file. by rewrite lookup_insert_ne.
Qed.

Lemma logger_log_file_witness :
  _instance sample_world = None
  ∧ Logger_new (py "elsewhere/log.txt")
      (log_all (Logger_new (py "log.txt") sample_world).1 sample_entries
         (Logger_new (py "log.txt") sample_world).2)
    = ((Logger_new (py "log.txt") sample_world).1,
       log_all (Logger_new (py "log.txt") sample_world).1 sample_entries
         (Logger_new (py "log.txt") sample_world).2)
  ∧ files (log_all (Logger_new (py "log.txt") sample_world).1 sample_entries
             (Logger_new (py "log.txt") sample_world).2)
      !! py "log.txt"
    = Some (py "Log File Initialized" ++ [10%N]
            ++ concat (log_line <$> sample_entries))
  ∧ ∀ path, path ≠ py "log.txt" →
      files (log_all (Logger_new (py "log.txt") sample_world).1
               sample_entries (Logger_new (py "log.txt") sample_world).2)
        !! path
      = files sample_world !! path.
Proof.
  split; [reflexivity|].
  exact (logger_log_file (py "log.txt") (py "elsewhere/log.txt") sample_world
           sample_entries eq_refl).
Defined.
